(** * Playfair cipher: a shallow embedding of [src/playfair.cpp]

    The class [PlayfairCipher] keeps two members, [processedText] (a
    [std::string]) and [cipherGrid] (a 5x5 array of [char]).  Its methods are
    embedded as functions on lists of 8-bit characters and on a list-of-rows
    grid; the class itself is a record and [process] threads it through the
    three steps. *)

From Stdlib Require Import ZArith Ascii String Lia.
From stdpp Require Import base list.

(** ** Characters and strings *)

(** A C++ [char] is one byte; [std::string] is a sequence of them. *)
Definition char := ascii.
Definition cstring := list char.

#[global] Instance char_eq_dec : EqDecision char := ascii_dec.

(** String literals of the source. *)
Definition lit (s : string) : cstring := list_ascii_of_string s.

(** [static_cast<unsigned char>(c)], promoted to [int]. *)
Definition uchar (c : char) : Z := Z.of_N (N_of_ascii c).

(** The value of a plain [char] promoted to [int], [char] being signed (as on
    x86); [char_range_unsigned] below shows that the letter test does not
    depend on that choice. *)
Definition schar (c : char) : Z :=
  if (uchar c <? 128)%Z then uchar c else (uchar c - 256)%Z.

(** [static_cast<char>(n)] for an [int] n. *)
Definition to_char (n : Z) : char := ascii_of_N (Z.to_N (n mod 256)).

(** [std::toupper] in the "C" locale (the program never sets another one). *)
Definition toupper (n : Z) : Z :=
  if ((97 <=? n) && (n <=? 122))%Z then (n - 32)%Z else n.

Module PlayfairConstants.
Definition GRID_SIZE : nat := 5.
Definition GRID_TOTAL_CELLS : nat := GRID_SIZE * GRID_SIZE.
Definition DEFAULT_KEY : cstring := lit "KEYWORD".
Definition PADDING_CHAR : char := "X"%char.
Definition FIRST_LETTER : char := "A"%char.
Definition LAST_LETTER : char := "Z"%char.
Definition PAIRS_PER_LINE : nat := 26.
Definition ENCRYPT_DIRECTION : Z := 1.
Definition DECRYPT_DIRECTION : Z := (-1).
End PlayfairConstants.
Import PlayfairConstants.

(** [uppercaseChar = static_cast<char>(std::toupper(static_cast<unsigned char>(character)))] *)
Definition upper_of (character : char) : char := to_char (toupper (uchar character)).

(** [uppercaseChar < FIRST_LETTER || uppercaseChar > LAST_LETTER] *)
Definition outside_letters (uppercaseChar : char) : bool :=
  (schar uppercaseChar <? schar FIRST_LETTER)%Z || (schar LAST_LETTER <? schar uppercaseChar)%Z.

(** [s.find(c)]: index of the first occurrence, [None] for [npos]. *)
Fixpoint str_find (s : cstring) (c : char) : option nat :=
  match s with
  | [] => None
  | x :: s' => if Ascii.eqb x c then Some 0 else S <$> str_find s' c
  end.

(** [s[i]] of [std::string]: the character at [i] for [i < size], the
    terminating NUL for [i = size]; beyond that the access is undefined.
    [char_at] is the access where the source guards the index, [str_at] the
    unguarded one, [None] standing for the undefined read. *)
Definition char_at (s : cstring) (i : nat) : char := nth i s zero.
Definition str_at (s : cstring) (i : nat) : option char :=
  if i <=? length s then Some (char_at s i) else None.

(** ** The grid *)

(** [std::array<std::array<char, 5>, 5>]: a list of rows. *)
Definition Grid := list (list char).

(** The value-initialised member [cipherGrid{}]: 25 NUL characters. *)
Definition blank_grid : Grid := replicate GRID_SIZE (replicate GRID_SIZE zero).

(** [g[row][column]] *)
Definition grid_get (g : Grid) (row column : nat) : char :=
  nth column (nth row g []) zero.

(** [g[row][column] = c] *)
Definition grid_set (g : Grid) (row column : nat) (c : char) : Grid :=
  alter (fun r => <[column := c]> r) row g.

(** A grid has the shape of the array type: 5 rows of 5 cells. *)
Definition grid_shape (g : Grid) : Prop :=
  length g = GRID_SIZE ∧ Forall (fun r => length r = GRID_SIZE) g.

(** The cells in row-major order. *)
Definition grid_cells (g : Grid) : cstring := concat g.

(** ** buildCipherGrid *)

Definition ALPHABET : cstring := lit "ABCDEFGHIJKLMNOPQRSTUVWXYZ".

(** [if (encryptionKey.empty()) encryptionKey = DEFAULT_KEY;
     encryptionKey += "ABC...Z";] *)
Definition keyStream (encryptionKey : cstring) : cstring :=
  (match encryptionKey with [] => DEFAULT_KEY | _ => encryptionKey end) ++ ALPHABET.

(** One iteration of the loop that extracts the unique characters. *)
Definition uniqueStep (shouldMapItoJ : bool) (uniqueCharacters : cstring)
    (character : char) : cstring :=
  let uppercaseChar := upper_of character in
  if outside_letters uppercaseChar then uniqueCharacters
  else if (Ascii.eqb uppercaseChar "J"%char && shouldMapItoJ)
          || (Ascii.eqb uppercaseChar "Q"%char && negb shouldMapItoJ)
  then uniqueCharacters
  else match str_find uniqueCharacters uppercaseChar with
       | None => uniqueCharacters ++ [uppercaseChar]
       | Some _ => uniqueCharacters
       end.

Definition uniqueCharacters (encryptionKey : cstring) (shouldMapItoJ : bool) : cstring :=
  fold_left (uniqueStep shouldMapItoJ) (keyStream encryptionKey) [].

(** [for (index = 0; index < GRID_TOTAL_CELLS; ++index)
       cipherGrid[index / 5][index % 5] = uniqueCharacters[index];]
    [n] counts the iterations that remain. *)
Fixpoint fillGrid (n index : nat) (unique : cstring) (g : Grid) : option Grid :=
  match n with
  | 0 => Some g
  | S n' =>
      match str_at unique index with
      | None => None
      | Some c =>
          fillGrid n' (S index) unique
            (grid_set g (index / GRID_SIZE) (index mod GRID_SIZE) c)
      end
  end.

(** The method, on the grid member: [None] is an out-of-range read of
    [uniqueCharacters]. *)
Definition buildCipherGrid (encryptionKey : cstring) (shouldMapItoJ : bool)
    (cipherGrid : Grid) : option Grid :=
  fillGrid GRID_TOTAL_CELLS 0 (uniqueCharacters encryptionKey shouldMapItoJ) cipherGrid.

(** [buildGrid(key, mode)] of the specification: the grid of a fresh object.
    The mode is the flag [shouldMapItoJ]: [true] is MergeJintoI, [false] is
    DropQ. *)
Definition buildGrid (key : cstring) (shouldMapItoJ : bool) : option Grid :=
  buildCipherGrid key shouldMapItoJ blank_grid.

Definition MergeJintoI : bool := true.
Definition DropQ : bool := false.

(** ** normalizeAndPrepareText *)

(** One iteration of the loop that uppercases, filters and maps. *)
Definition filterStep (shouldMapItoJ : bool) (processedText : cstring)
    (character : char) : cstring :=
  let uppercaseChar := upper_of character in
  if outside_letters uppercaseChar then processedText
  else if Ascii.eqb uppercaseChar "J"%char && shouldMapItoJ then processedText ++ ["I"%char]
  else if Ascii.eqb uppercaseChar "Q"%char && negb shouldMapItoJ then processedText
  else processedText ++ [uppercaseChar].

Definition filterText (inputText : cstring) (shouldMapItoJ : bool) : cstring :=
  fold_left (filterStep shouldMapItoJ) inputText [].

(** [for (index = 0; index < processedText.size(); index += 2)] of the
    encryption branch; [fuel] bounds the number of iterations. *)
Fixpoint pairLoop (fuel : nat) (processedText : cstring) (index : nat)
    (digraphPairs : cstring) : cstring :=
  match fuel with
  | 0 => digraphPairs
  | S fuel' =>
      if index <? length processedText then
        let pushed := digraphPairs ++ [char_at processedText index] in
        let pushed' :=
          if index + 1 <? length processedText then
            (if Ascii.eqb (char_at processedText index) (char_at processedText (index + 1))
             then pushed ++ [PADDING_CHAR] else pushed)
            ++ [char_at processedText (index + 1)]
          else pushed in
        pairLoop fuel' processedText (index + 2) pushed'
      else digraphPairs
  end.

(** [if (processedText.length() % 2 == 1) processedText.push_back(PADDING_CHAR);] *)
Definition padToEven (processedText : cstring) : cstring :=
  if length processedText mod 2 =? 1 then processedText ++ [PADDING_CHAR]
  else processedText.

Definition normalizeAndPrepareText (inputText : cstring) (shouldMapItoJ isEncryption : bool)
    : cstring :=
  let processedText := filterText inputText shouldMapItoJ in
  let processedText :=
    if isEncryption
    then pairLoop (length processedText) processedText 0 []
    else processedText in
  padToEven processedText.

(** ** findCharacterPosition, getCharacterAtPosition *)

(** A [for] loop over [l] whose body may [return]. *)
Fixpoint first_some {A B} (f : A → option B) (l : list A) : option B :=
  match l with
  | [] => None
  | x :: l' => match f x with Some y => Some y | None => first_some f l' end
  end.

(** Returns [(column, row)], or [None] where the source returns [false]. *)
Definition findCharacterPosition (g : Grid) (character : char) : option (Z * Z) :=
  first_some (fun rowIndex =>
    first_some (fun columnIndex =>
      if Ascii.eqb (grid_get g rowIndex columnIndex) character
      then Some (Z.of_nat columnIndex, Z.of_nat rowIndex)
      else None)
      (seq 0 GRID_SIZE))
    (seq 0 GRID_SIZE).

(** [(i % GRID_SIZE + GRID_SIZE) % GRID_SIZE]; the [%] of C++ truncates
    towards zero, which is [Z.rem].  Every intermediate value lies within 9
    of zero, so [int] arithmetic does not overflow here. *)
Definition wrapIndex (i : Z) : Z :=
  Z.rem (Z.rem i (Z.of_nat GRID_SIZE) + Z.of_nat GRID_SIZE) (Z.of_nat GRID_SIZE).

Definition getCharacterAtPosition (g : Grid) (column row : Z) : char :=
  let wrappedColumn := wrapIndex column in
  let wrappedRow := wrapIndex row in
  grid_get g (Z.to_nat wrappedRow) (Z.to_nat wrappedColumn).

(** ** transformDigraphPairs *)

(** The body of the loop for one pair: the letters it appends.  The columns
    and rows found lie in 0..4, and the source adds the shift to them as
    [int]: the sums below are those of the source as long as they stay within
    [int], that is for the shifts of [shiftInRange], among them the +1 and -1
    that [process] passes. *)
Definition transformPair (g : Grid) (shiftDirection : Z) (firstChar secondChar : char)
    : cstring :=
  match findCharacterPosition g firstChar with
  | None => []
  | Some (firstCharColumn, firstCharRow) =>
      match findCharacterPosition g secondChar with
      | None => []
      | Some (secondCharColumn, secondCharRow) =>
          if (firstCharRow =? secondCharRow)%Z then
            [ getCharacterAtPosition g (firstCharColumn + shiftDirection) firstCharRow;
              getCharacterAtPosition g (secondCharColumn + shiftDirection) secondCharRow ]
          else if (firstCharColumn =? secondCharColumn)%Z then
            [ getCharacterAtPosition g firstCharColumn (firstCharRow + shiftDirection);
              getCharacterAtPosition g secondCharColumn (secondCharRow + shiftDirection) ]
          else
            [ getCharacterAtPosition g secondCharColumn firstCharRow;
              getCharacterAtPosition g firstCharColumn secondCharRow ]
      end
  end.

(** [for (index = 0; index + 1 < processedText.size(); index += 2)] *)
Fixpoint transformLoop (fuel : nat) (g : Grid) (shiftDirection : Z)
    (processedText : cstring) (index : nat) (transformedText : cstring) : cstring :=
  match fuel with
  | 0 => transformedText
  | S fuel' =>
      if index + 1 <? length processedText then
        let firstChar := char_at processedText index in
        let secondChar := char_at processedText (index + 1) in
        transformLoop fuel' g shiftDirection processedText (index + 2)
          (transformedText ++ transformPair g shiftDirection firstChar secondChar)
      else transformedText
  end.

Definition transformDigraphPairs (g : Grid) (shiftDirection : Z) (processedText : cstring)
    : cstring :=
  transformLoop (length processedText) g shiftDirection processedText 0 [].

(** ** The class and [process] *)

Record PlayfairCipher := mkPlayfairCipher {
  processedText : cstring;
  cipherGrid : Grid
}.

Definition newCipher : PlayfairCipher :=
  {| processedText := []; cipherGrid := blank_grid |}.

(** [process], without the printing of the result. *)
Definition process (encryptionKey inputText : cstring) (shouldMapItoJ isEncryption : bool)
    (self : PlayfairCipher) : option PlayfairCipher :=
  match buildCipherGrid encryptionKey shouldMapItoJ (cipherGrid self) with
  | None => None
  | Some g =>
      let text := normalizeAndPrepareText inputText shouldMapItoJ isEncryption in
      Some {| processedText :=
                transformDigraphPairs g
                  (if isEncryption then ENCRYPT_DIRECTION else DECRYPT_DIRECTION) text;
              cipherGrid := g |}
  end.

(** ** printFormattedOutput *)

(** What [std::endl] writes: a line feed. *)
Definition endl : cstring := ["010"%char].

(** The loop of [printFormattedOutput]: the characters it writes to [std::cout],
    appended to [out]; [fuel] bounds the number of iterations. *)
Fixpoint printLoop (fuel : nat) (processedText : cstring) (index pairCount : nat)
    (out : cstring) : cstring :=
  match fuel with
  | 0 => out
  | S fuel' =>
      if index + 1 <? length processedText then
        let out := out ++ [char_at processedText index;
                           char_at processedText (index + 1); " "%char] in
        let pairCount := pairCount + 1 in
        if PAIRS_PER_LINE <=? pairCount
        then printLoop fuel' processedText (index + 2) 0 (out ++ endl)
        else printLoop fuel' processedText (index + 2) pairCount out
      else out
  end.

(** The pairs as they are printed, between the heading and the closing line
    feeds. *)
Definition printedPairs (processedText : cstring) : cstring :=
  printLoop (length processedText) processedText 0 0 [].

(** Everything [printFormattedOutput] writes. *)
Definition printFormattedOutput (processedText : cstring) : cstring :=
  (endl ++ endl ++ lit " OUTPUT:" ++ endl ++ lit "=========") ++ endl
  ++ printedPairs processedText
  ++ endl ++ endl.

(** * Notions of the specification and of the proofs *)

(** ** Letters and modes *)

(** The letter excluded by the mode. *)
Definition excluded (shouldMapItoJ : bool) : char :=
  if shouldMapItoJ then "J"%char else "Q"%char.

(** The letters a mode permits, as a test. *)
Definition permittedb (shouldMapItoJ : bool) (c : char) : bool :=
  negb (outside_letters c) && negb (Ascii.eqb c (excluded shouldMapItoJ)).

(** The 25 letters of a mode, in alphabetical order. *)
Definition permittedLetters (shouldMapItoJ : bool) : cstring :=
  filter (fun c => permittedb shouldMapItoJ c = true) ALPHABET.

(** What one character of a key contributes to the stream of the grid. *)
Definition keptChar (shouldMapItoJ : bool) (character : char) : option char :=
  let uppercaseChar := upper_of character in
  if outside_letters uppercaseChar then None
  else if (Ascii.eqb uppercaseChar "J"%char && shouldMapItoJ)
          || (Ascii.eqb uppercaseChar "Q"%char && negb shouldMapItoJ)
  then None else Some uppercaseChar.

(** What one character of a text contributes to the filtered text. *)
Definition mappedChar (shouldMapItoJ : bool) (character : char) : option char :=
  let uppercaseChar := upper_of character in
  if outside_letters uppercaseChar then None
  else if Ascii.eqb uppercaseChar "J"%char && shouldMapItoJ then Some "I"%char
  else if Ascii.eqb uppercaseChar "Q"%char && negb shouldMapItoJ then None
  else Some uppercaseChar.

(** The lowercase letters, in the order of [ALPHABET]. *)
Definition LOWERCASE : cstring := lit "abcdefghijklmnopqrstuvwxyz".

(** [translate from to c]: the character of [to] at the place where [c]
    stands in [from]; [c] itself if it does not stand there. *)
Fixpoint translate (from to : cstring) (c : char) : char :=
  match from, to with
  | x :: from', y :: to' => if Ascii.eqb c x then y else translate from' to' c
  | _, _ => c
  end.

(** Uppercasing, by the table of the letters and not by the code's
    [upper_of]: a lowercase letter becomes the uppercase letter at the same
    place of the alphabet, every other character stays as it is. *)
Definition uppercase (c : char) : char := translate LOWERCASE ALPHABET c.

(** The uppercase letters A to Z, by the table. *)
Definition isLetter (c : char) : bool := existsb (Ascii.eqb c) ALPHABET.

(** The letters that a sequence of key characters offers to the grid:
    uppercased, the letters A to Z only, without the letter that the mode
    excludes. *)
Definition gridLetters (shouldMapItoJ : bool) (chars : cstring) : cstring :=
  List.filter (fun c => isLetter c && negb (Ascii.eqb c (excluded shouldMapItoJ)))
    (map uppercase chars).

(** The normalized letter sequence as the specification words it: uppercase
    every character, keep the letters A to Z, then apply the mode (J becomes
    I under MergeJintoI, Q is discarded under DropQ). *)
Definition normalizedLetters (text : cstring) (mode : bool) : cstring :=
  let letters := List.filter isLetter (map uppercase text) in
  if mode
  then map (fun c => if Ascii.eqb c "J"%char then "I"%char else c) letters
  else List.filter (fun c => negb (Ascii.eqb c "Q"%char)) letters.

(** ** Keys *)

(** A key without its characters [J] and [j]. *)
Definition withoutJ (key : cstring) : cstring :=
  List.filter (fun c => negb (Ascii.eqb c "J"%char || Ascii.eqb c "j"%char)) key.

(** A key with [I] in the place of every [J] and [j]. *)
Definition withIforJ (key : cstring) : cstring :=
  map (fun c => if Ascii.eqb c "J"%char || Ascii.eqb c "j"%char then "I"%char else c) key.

(** ** Texts *)

(** The plaintexts the round-trip law speaks of. *)
Definition lettersOnly (text : cstring) : bool :=
  forallb (fun c => negb (outside_letters (upper_of c))) text.

(** No two equal letters stand next to each other. *)
Fixpoint noEqualAdjacent (text : cstring) : bool :=
  match text with
  | a :: tl => match tl with
               | b :: _ => negb (Ascii.eqb a b) && noEqualAdjacent tl
               | [] => true
               end
  | [] => true
  end.

(** The pairing loop by recursion on the text: what it appends for the
    letters it has yet to read. *)
Fixpoint pairUp (text : cstring) : cstring :=
  match text with
  | a :: b :: rest =>
      (if Ascii.eqb a b then [a; PADDING_CHAR; b] else [a; b]) ++ pairUp rest
  | _ => text
  end.



(** The transforming loop by recursion on the text: what it appends for the
    letters it has yet to read. *)
Fixpoint transformPairs (g : Grid) (shiftDirection : Z) (text : cstring) : cstring :=
  match text with
  | a :: b :: rest => transformPair g shiftDirection a b ++ transformPairs g shiftDirection rest
  | _ => []
  end.

(** The printing loop by recursion on the text, [pairCount] pairs into the
    current line: what it writes for the letters it has yet to read. *)
Fixpoint printPairs (pairCount : nat) (text : cstring) : cstring :=
  match text with
  | a :: b :: rest =>
      [a; b; " "%char]
      ++ (if PAIRS_PER_LINE <=? pairCount + 1
          then endl ++ printPairs 0 rest
          else printPairs (pairCount + 1) rest)
  | _ => []
  end.

(** Pairs on one line: every complete pair followed by a space. *)
Fixpoint spacedPairs (text : cstring) : cstring :=
  match text with
  | a :: b :: rest => a :: b :: " "%char :: spacedPairs rest
  | _ => []
  end.

(** The first occurrence of every letter, in order. *)
Fixpoint keepFirst (l : cstring) : cstring :=
  match l with
  | [] => []
  | x :: l' => x :: List.filter (fun y => negb (Ascii.eqb y x)) (keepFirst l')
  end.

(** Membership as a test. *)
Definition memb (c : char) (l : cstring) : bool := existsb (Ascii.eqb c) l.

(** The letters that a key gives to the grid: the letters the mode keeps of
    the key (of the default key if the key is empty), uppercased, each at its
    first occurrence. *)
Definition keyLetters (key : cstring) (shouldMapItoJ : bool) : cstring :=
  keepFirst (gridLetters shouldMapItoJ
               (match key with [] => lit "KEYWORD" | _ => key end)).

(** A text without its characters [Q] and [q]. *)
Definition withoutQ (text : cstring) : cstring :=
  List.filter (fun c => negb (Ascii.eqb c "Q"%char || Ascii.eqb c "q"%char)) text.

(** A text that leaves no letter behind: every character is outside A to Z
    once uppercased, or is a Q under DropQ. *)
Definition noLetters (shouldMapItoJ : bool) (text : cstring) : bool :=
  forallb (fun c => match mappedChar shouldMapItoJ c with Some _ => false | None => true end)
    text.

(** ** Grids *)

(** The shifts for which a column or row between 0 and 4 plus the shift is an
    [int] (32 bits): no overflow in the sums of the digraph rule. *)
Definition shiftInRange (d : Z) : Prop := (-2147483648 ≤ d ≤ 2147483643)%Z.

(** The row-major index of the cell that a lookup reads. *)
Definition cellIndex (column row : Z) : nat :=
  (Z.to_nat (row mod 5) * GRID_SIZE + Z.to_nat (column mod 5))%nat.

(** The grid of the key PLAYFAIR under MergeJintoI. *)
Definition playfairGrid : Grid :=
  map lit ["PLAYF"; "IRBCD"; "EGHKM"; "NOQST"; "UVWXZ"]%string.

(** ** Quantification over the 256 values of a byte, as a computation *)

Definition both (f : bool → bool) : bool := f true && f false.

Definition all_chars (P : char → bool) : bool :=
  both (fun b0 => both (fun b1 => both (fun b2 => both (fun b3 =>
  both (fun b4 => both (fun b5 => both (fun b6 => both (fun b7 =>
    P (Ascii b0 b1 b2 b3 b4 b5 b6 b7))))))))).

(** * Properties *)

(** ** Characters *)

Lemma both_spec (f : bool → bool) : both f = true → ∀ b, f b = true.
Proof. unfold both. intros [H1 H2]%andb_true_iff []; assumption. Qed.

Lemma all_chars_spec (P : char → bool) : all_chars P = true → ∀ c, P c = true.
Proof.
  intros H [b0 b1 b2 b3 b4 b5 b6 b7]. unfold all_chars in H.
  revert b7. apply both_spec. revert b6. apply both_spec. revert b5. apply both_spec.
  revert b4. apply both_spec. revert b3. apply both_spec. revert b2. apply both_spec.
  revert b1. apply both_spec. revert b0. apply both_spec. exact H.
Qed.

(** [by_all_chars c] proves a goal [P c = true] by running [P] on every byte. *)
Ltac by_all_chars c :=
  revert c;
  match goal with |- ∀ x, @?P x = true => apply (all_chars_spec P) end;
  vm_compute; reflexivity.

(** The range test reads the same whether [char] is signed or unsigned. *)
Lemma char_range_unsigned (c : char) :
  outside_letters c = ((uchar c <? uchar FIRST_LETTER) || (uchar LAST_LETTER <? uchar c))%Z.
Proof.
  apply eqb_prop. by_all_chars c.
Qed.

Lemma outside_letters_alphabet (c : char) :
  outside_letters c = false ↔ c ∈ ALPHABET.
Proof.
  rewrite <- (bool_decide_spec (c ∈ ALPHABET)).
  assert (Bool.eqb (outside_letters c) (negb (bool_decide (c ∈ ALPHABET))) = true) as H
    by by_all_chars c.
  apply eqb_prop in H. rewrite H.
  destruct (bool_decide (c ∈ ALPHABET)); simpl; split; intros; try discriminate;
    try reflexivity; try exact I; contradiction.
Qed.

Lemma upper_of_letter (c : char) : outside_letters c = false → upper_of c = c.
Proof.
  assert (outside_letters c || Ascii.eqb (upper_of c) c = true) as H by by_all_chars c.
  intros Hc. rewrite Hc in H. apply Ascii.eqb_eq, H.
Qed.

Lemma permittedb_spec (flag : bool) (c : char) :
  permittedb flag c = true ↔ c ∈ ALPHABET ∧ c ≠ excluded flag.
Proof.
  unfold permittedb. rewrite andb_true_iff, !negb_true_iff.
  rewrite outside_letters_alphabet, Ascii.eqb_neq. reflexivity.
Qed.

Lemma keptChar_permitted (flag : bool) (c u : char) :
  keptChar flag c = Some u → permittedb flag u = true.
Proof.
  assert (match keptChar flag c with Some u => permittedb flag u | None => true end = true)
    as H by (destruct flag; by_all_chars c).
  intros Hc. rewrite Hc in H. exact H.
Qed.

Lemma keptChar_of_permitted (flag : bool) (c : char) :
  permittedb flag c = true → keptChar flag c = Some c.
Proof.
  assert (negb (permittedb flag c)
          || match keptChar flag c with Some u => Ascii.eqb u c | None => false end = true)
    as H by (destruct flag; by_all_chars c).
  intros Hc. rewrite Hc in H. simpl in H.
  destruct (keptChar flag c); [apply Ascii.eqb_eq in H; congruence | discriminate].
Qed.

Lemma mappedChar_permitted (flag : bool) (c u : char) :
  mappedChar flag c = Some u → permittedb flag u = true.
Proof.
  assert (match mappedChar flag c with Some u => permittedb flag u | None => true end = true)
    as H by (destruct flag; by_all_chars c).
  intros Hc. rewrite Hc in H. exact H.
Qed.

Lemma mappedChar_of_permitted (flag : bool) (c : char) :
  permittedb flag c = true → mappedChar flag c = Some c.
Proof.
  assert (negb (permittedb flag c)
          || match mappedChar flag c with Some u => Ascii.eqb u c | None => false end = true)
    as H by (destruct flag; by_all_chars c).
  intros Hc. rewrite Hc in H. simpl in H.
  destruct (mappedChar flag c); [apply Ascii.eqb_eq in H; congruence | discriminate].
Qed.

Lemma padding_permitted (flag : bool) : permittedb flag PADDING_CHAR = true.
Proof. destruct flag; reflexivity. Qed.

(** The code's uppercasing is uppercasing: a to z go to A to Z, and nothing
    else changes. *)
Lemma upper_of_uppercase (c : char) : upper_of c = uppercase c.
Proof.
  assert (Ascii.eqb (upper_of c) (uppercase c) = true) as H by by_all_chars c.
  apply Ascii.eqb_eq, H.
Qed.

(** The code's range test keeps the letters A to Z and nothing else. *)
Lemma outside_letters_isLetter (c : char) : negb (outside_letters c) = isLetter c.
Proof. apply eqb_prop. by_all_chars c. Qed.

Lemma keptChar_gridLetter (flag : bool) (c : char) :
  keptChar flag c
  = if isLetter (uppercase c) && negb (Ascii.eqb (uppercase c) (excluded flag))
    then Some (uppercase c) else None.
Proof.
  unfold keptChar. rewrite upper_of_uppercase, <- outside_letters_isLetter.
  destruct (outside_letters (uppercase c)); [reflexivity |].
  destruct flag; simpl; rewrite ?andb_true_r, ?andb_false_r, ?orb_false_r;
    destruct (Ascii.eqb (uppercase c) _); reflexivity.
Qed.

Lemma omap_keptChar (flag : bool) (chars : cstring) :
  omap (keptChar flag) chars = gridLetters flag chars.
Proof.
  unfold gridLetters. induction chars as [|c chars IH]; [reflexivity |].
  change (omap (keptChar flag) (c :: chars))
    with (match keptChar flag c with
          | Some u => u :: omap (keptChar flag) chars
          | None => omap (keptChar flag) chars
          end).
  rewrite IH, keptChar_gridLetter. cbn [map List.filter].
  destruct (isLetter (uppercase c) && negb (Ascii.eqb (uppercase c) (excluded flag)));
    reflexivity.
Qed.

(** ** Searching a string *)

Lemma str_find_None (s : cstring) (c : char) : str_find s c = None ↔ c ∉ s.
Proof.
  induction s as [|x s IH]; simpl.
  - split; [intros _; apply not_elem_of_nil | reflexivity].
  - rewrite not_elem_of_cons. destruct (Ascii.eqb_spec x c) as [->|Hne].
    + split; [discriminate | intros [Hc _]; contradiction].
    + destruct (str_find s c) eqn:E; simpl.
      * split; [discriminate |]. intros [_ Hc]. apply IH in Hc. discriminate.
      * split; [| reflexivity]. intros _. split; [congruence | apply IH; reflexivity].
Qed.

Lemma str_find_Some (s : cstring) (c : char) (i : nat) :
  str_find s c = Some i → s !! i = Some c.
Proof.
  revert i. induction s as [|x s IH]; simpl; intros i; [discriminate |].
  destruct (Ascii.eqb_spec x c) as [->|Hne].
  - intros [= <-]. reflexivity.
  - destruct (str_find s c) as [j|]; simpl; [| discriminate].
    intros [= <-]. simpl. apply IH. reflexivity.
Qed.

Lemma str_find_lookup (s : cstring) (c : char) (i : nat) :
  NoDup s → s !! i = Some c → str_find s c = Some i.
Proof.
  intros Hnd. revert i. induction Hnd as [|x s Hx Hnd IH]; intros i; [discriminate |].
  destruct i as [|i]; simpl.
  - intros [= ->]. rewrite Ascii.eqb_refl. reflexivity.
  - intros Hi. destruct (Ascii.eqb_spec x c) as [->|Hne].
    + exfalso. apply Hx. eapply list_elem_of_lookup_2, Hi.
    + rewrite (IH _ Hi). reflexivity.
Qed.

Lemma char_at_lookup (s : cstring) (i : nat) (c : char) :
  s !! i = Some c → char_at s i = c.
Proof. intros H. unfold char_at. apply nth_lookup_Some, H. Qed.

(** ** The unique characters of a key *)

Section UniqueCharacters.
Variable flag : bool.

Lemma uniqueStep_kept (acc : cstring) (c : char) :
  uniqueStep flag acc c =
  match keptChar flag c with
  | None => acc
  | Some u => match str_find acc u with None => acc ++ [u] | Some _ => acc end
  end.
Proof.
  unfold uniqueStep, keptChar.
  destruct (outside_letters (upper_of c)); [reflexivity |].
  destruct (_ || _); reflexivity.
Qed.

Lemma uniqueStep_NoDup (acc : cstring) (c : char) :
  NoDup acc → NoDup (uniqueStep flag acc c).
Proof.
  intros Hnd. rewrite uniqueStep_kept.
  destruct (keptChar flag c) as [u|]; [| assumption].
  destruct (str_find acc u) eqn:E; [assumption |].
  apply str_find_None in E. apply NoDup_app. split; [assumption |].
  split; [| apply NoDup_singleton].
  intros x Hx ->%list_elem_of_singleton. contradiction.
Qed.

Lemma uniqueStep_elem (acc : cstring) (c u : char) :
  u ∈ uniqueStep flag acc c ↔ u ∈ acc ∨ keptChar flag c = Some u.
Proof.
  rewrite uniqueStep_kept. destruct (keptChar flag c) as [v|].
  - destruct (str_find acc v) eqn:E.
    + split; [auto |]. intros [H | [= ->]]; [assumption |].
      apply str_find_Some in E. eapply list_elem_of_lookup_2, E.
    + rewrite elem_of_app, list_elem_of_singleton.
      split; (intros [H | H]; [left; assumption | right; congruence]).
  - split; [auto | intros [H | H]; [assumption | discriminate]].
Qed.

Lemma fold_unique_NoDup (stream acc : cstring) :
  NoDup acc → NoDup (fold_left (uniqueStep flag) stream acc).
Proof.
  revert acc. induction stream as [|c stream IH]; simpl; intros acc Hnd;
    [assumption | apply IH, uniqueStep_NoDup, Hnd].
Qed.

Lemma fold_unique_elem (stream acc : cstring) (u : char) :
  u ∈ fold_left (uniqueStep flag) stream acc ↔
  u ∈ acc ∨ ∃ c, c ∈ stream ∧ keptChar flag c = Some u.
Proof.
  revert acc. induction stream as [|c stream IH]; simpl; intros acc.
  - split; [auto |]. intros [H | (c & Hc & _)]; [assumption |].
    apply elem_of_nil in Hc. destruct Hc.
  - rewrite IH, uniqueStep_elem. split.
    + intros [[H | H] | (c' & Hc' & H)].
      * left; assumption.
      * right. exists c. split; [apply elem_of_cons; left; reflexivity | assumption].
      * right. exists c'. split; [apply elem_of_cons; right; assumption | assumption].
    + intros [H | (c' & Hc' & H)].
      * left; left; assumption.
      * apply elem_of_cons in Hc' as [-> | Hc'].
        -- left; right; assumption.
        -- right. exists c'. split; assumption.
Qed.

Lemma alphabet_in_keyStream (key : cstring) (c : char) :
  c ∈ ALPHABET → c ∈ keyStream key.
Proof. intros H. unfold keyStream. apply elem_of_app. right. assumption. Qed.

Lemma uniqueCharacters_NoDup (key : cstring) : NoDup (uniqueCharacters key flag).
Proof. apply fold_unique_NoDup, NoDup_nil_2. Qed.

Lemma uniqueCharacters_elem (key : cstring) (u : char) :
  u ∈ uniqueCharacters key flag ↔ permittedb flag u = true.
Proof.
  unfold uniqueCharacters. rewrite fold_unique_elem. split.
  - intros [H | (c & _ & H)]; [apply elem_of_nil in H; destruct H |].
    eapply keptChar_permitted, H.
  - intros H. right. exists u. split; [| apply keptChar_of_permitted, H].
    apply alphabet_in_keyStream. apply permittedb_spec in H. apply H.
Qed.

Lemma permittedLetters_elem (u : char) :
  u ∈ permittedLetters flag ↔ permittedb flag u = true.
Proof.
  unfold permittedLetters. rewrite list_elem_of_filter. split; [intros [H _]; exact H |].
  intros H. split; [exact H |]. apply permittedb_spec in H. apply H.
Qed.

Lemma uniqueCharacters_perm (key : cstring) :
  uniqueCharacters key flag ≡ₚ permittedLetters flag.
Proof.
  apply NoDup_Permutation.
  - apply uniqueCharacters_NoDup.
  - apply NoDup_filter. apply (bool_decide_unpack _). vm_compute. exact I.
  - intros u. rewrite uniqueCharacters_elem, permittedLetters_elem. reflexivity.
Qed.
End UniqueCharacters.

Lemma uniqueCharacters_length (key : cstring) (flag : bool) :
  length (uniqueCharacters key flag) = GRID_TOTAL_CELLS.
Proof.
  rewrite (Permutation_length (uniqueCharacters_perm flag key)).
  destruct flag; vm_compute; reflexivity.
Qed.

(** ** Filling and reading the grid *)

(** Names the 25 cells of a grid whose shape is known by [H]. *)
Ltac open_grid g H :=
  repeat match type of H with ex _ => destruct H as [? H] end; subst g.

(** A grid of the right shape is five explicit rows of five cells. *)
Lemma grid_shape_inv (g : Grid) :
  grid_shape g →
  ∃ a0 a1 a2 a3 a4 b0 b1 b2 b3 b4 c0 c1 c2 c3 c4 d0 d1 d2 d3 d4 e0 e1 e2 e3 e4,
    g = [[a0; a1; a2; a3; a4]; [b0; b1; b2; b3; b4]; [c0; c1; c2; c3; c4];
         [d0; d1; d2; d3; d4]; [e0; e1; e2; e3; e4]].
Proof.
  intros [Hlen Hrows].
  do 6 (destruct g as [|? g]; try discriminate Hlen).
  repeat match goal with
         | H : Forall _ (_ :: _) |- _ => apply Forall_cons in H as [? H]
         end.
  repeat match goal with
         | H : length ?r = GRID_SIZE |- _ =>
             do 6 (destruct r as [|? r]; try discriminate H); clear H
         end.
  repeat eexists.
Qed.

Lemma grid_shape_length (g : Grid) : grid_shape g → length (grid_cells g) = GRID_TOTAL_CELLS.
Proof.
  intros H. apply grid_shape_inv in H. open_grid g H. reflexivity.
Qed.

(** With 25 unique characters the fill reads in range and overwrites every
    cell: the result has the cells of [unique], row by row. *)
Lemma fillGrid_full (unique : cstring) (g : Grid) :
  length unique = GRID_TOTAL_CELLS → grid_shape g →
  ∃ g', fillGrid GRID_TOTAL_CELLS 0 unique g = Some g'
        ∧ grid_shape g' ∧ grid_cells g' = unique.
Proof.
  intros Hlen Hg. apply grid_shape_inv in Hg.
  open_grid g Hg.
  do 26 (destruct unique as [|? unique]; try discriminate Hlen).
  eexists. split; [reflexivity |]. split; [| reflexivity].
  split; [reflexivity |]. repeat constructor.
Qed.

(** Reading a cell is reading the row-major sequence. *)
Lemma grid_get_cells (g : Grid) (row column : nat) :
  grid_shape g → row < GRID_SIZE → column < GRID_SIZE →
  grid_get g row column = char_at (grid_cells g) (row * GRID_SIZE + column).
Proof.
  intros Hg Hr Hc. apply grid_shape_inv in Hg.
  open_grid g Hg. unfold GRID_SIZE in *.
  do 5 (destruct row as [|row]; [do 5 (destruct column as [|column]; [reflexivity |]); lia |]).
  lia.
Qed.

(** The nested search is [find] on the row-major sequence. *)
Lemma findCharacterPosition_cells (g : Grid) (character : char) :
  grid_shape g →
  findCharacterPosition g character =
  (fun i => (Z.of_nat (i mod GRID_SIZE), Z.of_nat (i / GRID_SIZE)))
    <$> str_find (grid_cells g) character.
Proof.
  intros Hg. apply grid_shape_inv in Hg.
  open_grid g Hg.
  unfold findCharacterPosition, grid_get. simpl.
  repeat (match goal with
          | |- context [Ascii.eqb ?a character] => destruct (Ascii.eqb a character)
          end; [reflexivity |]).
  reflexivity.
Qed.

(** ** Wrapped coordinates *)

Local Open Scope Z_scope.

Lemma wrapIndex_mod (i : Z) : wrapIndex i = i mod 5.
Proof.
  unfold wrapIndex, GRID_SIZE. change (Z.of_nat 5) with 5%Z.
  pose proof (Z.quot_rem' i 5) as Hq.
  assert (-5 < Z.rem i 5 < 5) as Hr.
  { pose proof (Z.rem_bound_abs i 5). lia. }
  rewrite Z.rem_mod_nonneg by lia.
  revert Hq Hr. generalize (Z.rem i 5) (Z.quot i 5). intros r q Hq Hr.
  subst i. replace (r + 5) with (r + 1 * 5) by lia.
  replace (5 * q + r) with (r + q * 5) by lia.
  rewrite !Z.mod_add by lia. reflexivity.
Qed.

Lemma wrapIndex_range (i : Z) : 0 ≤ wrapIndex i < 5.
Proof. rewrite wrapIndex_mod. apply Z.mod_pos_bound. lia. Qed.

Lemma mod5_to_nat (i : Z) : (Z.to_nat (i mod 5) < 5)%nat.
Proof. pose proof (Z.mod_pos_bound i 5). lia. Qed.

Lemma cellIndex_lt (column row : Z) : (cellIndex column row < GRID_TOTAL_CELLS)%nat.
Proof.
  unfold cellIndex, GRID_TOTAL_CELLS, GRID_SIZE.
  pose proof (mod5_to_nat column). pose proof (mod5_to_nat row). lia.
Qed.

Lemma cellIndex_div_mod (column row : Z) :
  Z.of_nat (cellIndex column row mod GRID_SIZE) = column mod 5
  ∧ Z.of_nat (cellIndex column row / GRID_SIZE) = row mod 5.
Proof.
  unfold cellIndex, GRID_SIZE.
  pose proof (mod5_to_nat column). pose proof (mod5_to_nat row).
  pose proof (Z.mod_pos_bound column 5). pose proof (Z.mod_pos_bound row 5).
  rewrite (Nat.add_comm (_ * 5)), Nat.Div0.mod_add, Nat.div_add by lia.
  rewrite Nat.mod_small, Nat.div_small by lia. lia.
Qed.

Lemma index_column_row (i : nat) :
  (i < GRID_TOTAL_CELLS)%nat →
  0 ≤ Z.of_nat (i mod GRID_SIZE) < 5 ∧ 0 ≤ Z.of_nat (i / GRID_SIZE) < 5.
Proof.
  unfold GRID_TOTAL_CELLS, GRID_SIZE. intros E.
  pose proof (Nat.mod_upper_bound i 5).
  pose proof (Nat.Div0.div_lt_upper_bound i 5 5 E). lia.
Qed.

Lemma cellIndex_of_nat (i : nat) (column row : Z) :
  column mod 5 = Z.of_nat (i mod GRID_SIZE) → row mod 5 = Z.of_nat (i / GRID_SIZE) →
  cellIndex column row = i.
Proof.
  unfold cellIndex, GRID_SIZE. intros -> ->. rewrite !Nat2Z.id.
  pose proof (Nat.div_mod_eq i 5). lia.
Qed.

Lemma getCharacterAtPosition_cells (g : Grid) (column row : Z) :
  grid_shape g →
  getCharacterAtPosition g column row = char_at (grid_cells g) (cellIndex column row).
Proof.
  intros Hg. unfold getCharacterAtPosition, cellIndex.
  rewrite !wrapIndex_mod. apply grid_get_cells; [assumption | |]; apply mod5_to_nat.
Qed.

(** Every lookup reads a cell of the grid. *)
Lemma getCharacterAtPosition_lookup (g : Grid) (column row : Z) :
  grid_shape g →
  grid_cells g !! cellIndex column row = Some (getCharacterAtPosition g column row).
Proof.
  intros Hg. rewrite getCharacterAtPosition_cells by assumption.
  pose proof (cellIndex_lt column row) as Hlt.
  rewrite <- (grid_shape_length g Hg) in Hlt.
  apply lookup_lt_is_Some_2 in Hlt as [x Hx].
  rewrite (char_at_lookup _ _ _ Hx). exact Hx.
Qed.

(** In a grid without repeated letters the search inverts the lookup. *)
Lemma find_get (g : Grid) (column row : Z) :
  grid_shape g → NoDup (grid_cells g) →
  findCharacterPosition g (getCharacterAtPosition g column row)
  = Some (column mod 5, row mod 5).
Proof.
  intros Hg Hnd. rewrite findCharacterPosition_cells by assumption.
  rewrite (str_find_lookup _ _ _ Hnd (getCharacterAtPosition_lookup g column row Hg)).
  destruct (cellIndex_div_mod column row) as [H1 H2]. rewrite <- H1, <- H2. reflexivity.
Qed.

(** A position that the search returns lies in the grid, and the lookup at
    it (or at any position that wraps to it) reads the letter back. *)
Lemma get_find (g : Grid) (character : char) (c r : Z) :
  grid_shape g →
  findCharacterPosition g character = Some (c, r) →
  (0 ≤ c < 5 ∧ 0 ≤ r < 5)
  ∧ ∀ column row, column mod 5 = c → row mod 5 = r →
      getCharacterAtPosition g column row = character.
Proof.
  intros Hg Hf. rewrite findCharacterPosition_cells in Hf by assumption.
  destruct (str_find (grid_cells g) character) as [i|] eqn:E; [| discriminate Hf].
  change (Some (Z.of_nat (i mod GRID_SIZE), Z.of_nat (i / GRID_SIZE)) = Some (c, r)) in Hf.
  injection Hf as <- <-. split.
  { apply str_find_Some, lookup_lt_Some in E.
    rewrite (grid_shape_length g Hg) in E. apply index_column_row, E. }
  intros column row Hc Hr. rewrite getCharacterAtPosition_cells by assumption.
  rewrite (cellIndex_of_nat i) by assumption.
  apply char_at_lookup, str_find_Some, E.
Qed.

(** The search succeeds exactly on the letters of the grid. *)
Lemma find_in_grid (g : Grid) (character : char) :
  grid_shape g →
  character ∈ grid_cells g ↔ is_Some (findCharacterPosition g character).
Proof.
  intros Hg. rewrite findCharacterPosition_cells by assumption.
  rewrite fmap_is_Some. destruct (str_find (grid_cells g) character) eqn:E.
  - split; [eauto |]. intros _. apply str_find_Some in E.
    eapply list_elem_of_lookup_2, E.
  - apply str_find_None in E. split; [contradiction | intros [? [=]]].
Qed.

Local Close Scope Z_scope.

(** ** The two stride-2 loops, by recursion on the text *)

(** Induction over a text two letters at a time. *)
Lemma pairs_ind (P : cstring → Prop) :
  P [] → (∀ a, P [a]) → (∀ a b rest, P rest → P (a :: b :: rest)) → ∀ text, P text.
Proof.
  intros Hnil Hone Hstep.
  assert (∀ text, P text ∧ ∀ a, P (a :: text)) as H.
  { induction text as [|b text [IH1 IH2]]; [split; [exact Hnil | exact Hone] |].
    split; [apply IH2 |]. intros a. apply Hstep, IH1. }
  intros text. apply H.
Qed.

Lemma drop_at (text : cstring) (index : nat) :
  index < length text → drop index text = char_at text index :: drop (S index) text.
Proof.
  intros Hlt. apply lookup_lt_is_Some_2 in Hlt as [x Hx].
  rewrite (char_at_lookup _ _ _ Hx). apply drop_S, Hx.
Qed.

Lemma pairLoop_drop (fuel : nat) (text : cstring) (index : nat) (acc : cstring) :
  length text - index ≤ fuel →
  pairLoop fuel text index acc = acc ++ pairUp (drop index text).
Proof.
  revert index acc. induction fuel as [|fuel IH]; intros index acc Hfuel; simpl.
  - rewrite drop_ge by lia. rewrite app_nil_r. reflexivity.
  - destruct (Nat.ltb_spec index (length text)) as [Hlt | Hge].
    + rewrite IH by lia. rewrite (drop_at text index Hlt).
      replace (index + 2) with (S (S index)) by lia.
      destruct (Nat.ltb_spec (index + 1) (length text)) as [Hlt' | Hge'].
      * rewrite (drop_at text (S index)) by lia.
        replace (index + 1) with (S index) by lia. simpl.
        destruct (Ascii.eqb _ _); simpl; rewrite <- !app_assoc; reflexivity.
      * rewrite (drop_ge text (S index)) by lia.
        rewrite (drop_ge text (S (S index))) by lia. simpl.
        rewrite app_nil_r. reflexivity.
    + rewrite drop_ge by lia. rewrite app_nil_r. reflexivity.
Qed.

Lemma transformLoop_drop (fuel : nat) (g : Grid) (d : Z) (text : cstring)
    (index : nat) (acc : cstring) :
  length text - index ≤ fuel →
  transformLoop fuel g d text index acc = acc ++ transformPairs g d (drop index text).
Proof.
  revert index acc. induction fuel as [|fuel IH]; intros index acc Hfuel; simpl.
  - rewrite drop_ge by lia. rewrite app_nil_r. reflexivity.
  - destruct (Nat.ltb_spec (index + 1) (length text)) as [Hlt | Hge].
    + rewrite IH by lia. rewrite (drop_at text index) by lia.
      rewrite (drop_at text (S index)) by lia.
      replace (index + 2) with (S (S index)) by lia.
      replace (index + 1) with (S index) by lia. simpl.
      rewrite <- app_assoc. reflexivity.
    + destruct (Nat.lt_ge_cases index (length text)) as [Hlt | Hge2].
      * rewrite (drop_at text index Hlt). rewrite (drop_ge text (S index)) by lia.
        rewrite app_nil_r. reflexivity.
      * rewrite drop_ge by lia. rewrite app_nil_r. reflexivity.
Qed.

(** The loops run to the end of the text with the fuel they are given. *)
Lemma pairLoop_pairUp (text : cstring) : pairLoop (length text) text 0 [] = pairUp text.
Proof. rewrite pairLoop_drop by lia. reflexivity. Qed.

Lemma transformDigraphPairs_pairs (g : Grid) (d : Z) (text : cstring) :
  transformDigraphPairs g d text = transformPairs g d text.
Proof. unfold transformDigraphPairs. rewrite transformLoop_drop by lia. reflexivity. Qed.

(** More fuel changes nothing. *)
Lemma pairLoop_fuel (fuel : nat) (text : cstring) :
  length text ≤ fuel → pairLoop fuel text 0 [] = pairLoop (length text) text 0 [].
Proof. intros H. rewrite !pairLoop_drop by lia. reflexivity. Qed.

Lemma transformLoop_fuel (fuel : nat) (g : Grid) (d : Z) (text : cstring) :
  length text ≤ fuel →
  transformLoop fuel g d text 0 [] = transformLoop (length text) g d text 0 [].
Proof. intros H. rewrite !transformLoop_drop by lia. reflexivity. Qed.

(** ** One digraph *)

Local Open Scope Z_scope.

Lemma shift_back (c d : Z) :
  0 ≤ c < 5 → d = 1 ∨ d = -1 → ((c + d) mod 5 + - d) mod 5 = c.
Proof.
  intros Hc Hd.
  assert (c = 0 ∨ c = 1 ∨ c = 2 ∨ c = 3 ∨ c = 4) as Hc' by lia.
  destruct Hd; subst d; repeat (destruct Hc' as [-> | Hc']; [reflexivity |]);
    subst c; reflexivity.
Qed.

Lemma shift_inj (c c' d : Z) :
  0 ≤ c < 5 → 0 ≤ c' < 5 → (c + d) mod 5 = (c' + d) mod 5 → c = c'.
Proof.
  intros Hc Hc' H.
  assert ((c - c') mod 5 = 0) as H0.
  { replace (c - c') with ((c + d) - (c' + d)) by lia.
    rewrite Zminus_mod, H, Z.sub_diag. reflexivity. }
  apply Z.mod_divide in H0; [| lia]. destruct H0 as [k Hk]. lia.
Qed.

Lemma mod5_idem (c : Z) : 0 ≤ c < 5 → (c mod 5) mod 5 = c.
Proof. intros Hc. rewrite (Z.mod_small c 5 Hc). apply Z.mod_small, Hc. Qed.

Ltac wrapped :=
  first [ apply shift_back; assumption
        | apply mod5_idem; assumption
        | apply Z.mod_small; assumption ].

Section Digraph.
Variable g : Grid.
Hypothesis Hshape : grid_shape g.

Lemma get_in_grid (column row : Z) :
  getCharacterAtPosition g column row ∈ grid_cells g.
Proof. eapply list_elem_of_lookup_2, getCharacterAtPosition_lookup, Hshape. Qed.

(** A pair yields nothing or two cells of the grid. *)
Lemma transformPair_shape (d : Z) (a b : char) :
  transformPair g d a b = []
  ∨ ∃ x y, transformPair g d a b = [x; y] ∧ x ∈ grid_cells g ∧ y ∈ grid_cells g.
Proof.
  unfold transformPair.
  destruct (findCharacterPosition g a) as [[ca ra]|]; [| left; reflexivity].
  destruct (findCharacterPosition g b) as [[cb rb]|]; [| left; reflexivity].
  right. destruct (ra =? rb); [| destruct (ca =? cb)];
    eexists _, _; (split; [reflexivity |]); split; apply get_in_grid.
Qed.

(** A pair with a letter that is not in the grid yields nothing. *)
Lemma transformPair_absent (d : Z) (a b : char) :
  a ∉ grid_cells g ∨ b ∉ grid_cells g → transformPair g d a b = [].
Proof.
  rewrite !(find_in_grid g _ Hshape). unfold transformPair.
  destruct (findCharacterPosition g a) as [[ca ra]|].
  - destruct (findCharacterPosition g b) as [[cb rb]|]; [| reflexivity].
    intros [H | H]; exfalso; apply H; eauto.
  - reflexivity.
Qed.

Hypothesis Hnodup : NoDup (grid_cells g).

(** Shifting a pair of grid letters by [d] and then by [-d] gives the pair
    back. *)
Lemma transformPair_inverse (d : Z) (a b : char) :
  d = 1 ∨ d = -1 → a ∈ grid_cells g → b ∈ grid_cells g →
  ∃ x y, transformPair g d a b = [x; y]
         ∧ x ∈ grid_cells g ∧ y ∈ grid_cells g
         ∧ transformPair g (- d) x y = [a; b].
Proof.
  intros Hd Ha Hb.
  apply (find_in_grid g _ Hshape) in Ha as [[ca ra] Ha].
  apply (find_in_grid g _ Hshape) in Hb as [[cb rb] Hb].
  destruct (get_find g a ca ra Hshape Ha) as [[Hca Hra] Hgeta].
  destruct (get_find g b cb rb Hshape Hb) as [[Hcb Hrb] Hgetb].
  unfold transformPair at 1. rewrite Ha, Hb.
  destruct (Z.eqb_spec ra rb) as [Hrow | Hrow];
    [| destruct (Z.eqb_spec ca cb) as [Hcol | Hcol]];
    eexists _, _; (split; [reflexivity |]);
    (split; [apply get_in_grid |]); (split; [apply get_in_grid |]);
    unfold transformPair; rewrite !(find_get g _ _ Hshape Hnodup).
  - subst rb. rewrite Z.eqb_refl.
    rewrite Hgeta, Hgetb; [reflexivity | | | |]; wrapped.
  - subst cb.
    destruct (Z.eqb_spec ((ra + d) mod 5) ((rb + d) mod 5)) as [E | _].
    { exfalso. apply Hrow. eapply shift_inj; eassumption. }
    rewrite Z.eqb_refl.
    rewrite Hgeta, Hgetb; [reflexivity | | | |]; wrapped.
  - rewrite !Z.mod_small by lia.
    destruct (Z.eqb_spec ra rb) as [E | _]; [contradiction |].
    destruct (Z.eqb_spec cb ca) as [E | _]; [congruence |].
    rewrite Hgeta, Hgetb; [reflexivity | | | |]; wrapped.
Qed.
End Digraph.

Local Close Scope Z_scope.

(** ** Lengths modulo two *)

Lemma mod2_cases (n : nat) : n mod 2 = 0 ∨ n mod 2 = 1.
Proof. pose proof (Nat.mod_upper_bound n 2). lia. Qed.

Lemma mod2_Even (n : nat) : n mod 2 = 0 ↔ Nat.Even n.
Proof.
  split.
  - intros H. exists (n / 2). pose proof (Nat.div_mod_eq n 2). lia.
  - intros [m ->]. rewrite Nat.mul_comm. apply Nat.Div0.mod_mul.
Qed.

Lemma mod2_succ_succ (n : nat) : S (S n) mod 2 = n mod 2.
Proof. replace (S (S n)) with (n + 1 * 2) by lia. apply Nat.Div0.mod_add. Qed.

Lemma mod2_succ (n : nat) : n mod 2 = 1 → S n mod 2 = 0.
Proof.
  intros H. apply mod2_Even. exists (S (n / 2)).
  pose proof (Nat.div_mod_eq n 2). lia.
Qed.

(** ** The prepared text *)

Section Prepared.
Variable flag : bool.

Lemma filterStep_mapped (acc : cstring) (c : char) :
  filterStep flag acc c
  = acc ++ match mappedChar flag c with Some u => [u] | None => [] end.
Proof.
  unfold filterStep, mappedChar.
  destruct (outside_letters (upper_of c)); [symmetry; apply app_nil_r |].
  destruct (_ && flag); [reflexivity |].
  destruct (_ && negb flag); [symmetry; apply app_nil_r | reflexivity].
Qed.

Lemma fold_filterStep (text acc : cstring) :
  fold_left (filterStep flag) text acc = acc ++ omap (mappedChar flag) text.
Proof.
  revert acc. induction text as [|c text IH]; intros acc; simpl.
  - symmetry. apply app_nil_r.
  - rewrite IH, filterStep_mapped, <- app_assoc.
    destruct (mappedChar flag c); reflexivity.
Qed.

Lemma filterText_omap (text : cstring) :
  filterText text flag = omap (mappedChar flag) text.
Proof. apply fold_filterStep. Qed.

Lemma filterText_permitted (text : cstring) :
  Forall (fun c => permittedb flag c = true) (filterText text flag).
Proof.
  rewrite filterText_omap. apply Forall_forall. intros u Hu.
  apply list_elem_of_omap in Hu as (c & _ & Hc). eapply mappedChar_permitted, Hc.
Qed.

(** Permitted letters pass the filter unchanged. *)
Lemma filterText_id (text : cstring) :
  Forall (fun c => permittedb flag c = true) text → filterText text flag = text.
Proof.
  rewrite filterText_omap. induction 1 as [|c text Hc _ IH]; [reflexivity |].
  change (match mappedChar flag c with
          | Some u => u :: omap (mappedChar flag) text
          | None => omap (mappedChar flag) text
          end = c :: text).
  rewrite (mappedChar_of_permitted flag c Hc), IH. reflexivity.
Qed.

Lemma pairUp_Forall (P : char → Prop) (text : cstring) :
  P PADDING_CHAR → Forall P text → Forall P (pairUp text).
Proof.
  intros HX. induction text as [| a | a b rest IH] using pairs_ind; intros H; simpl;
    [assumption | assumption |].
  apply Forall_cons in H as [Ha H]. apply Forall_cons in H as [Hb H].
  apply Forall_app. split; [| apply IH, H].
  destruct (Ascii.eqb a b); repeat constructor; assumption.
Qed.

Lemma padToEven_Forall (P : char → Prop) (text : cstring) :
  P PADDING_CHAR → Forall P text → Forall P (padToEven text).
Proof.
  intros HX H. unfold padToEven. destruct (_ =? _); [| assumption].
  apply Forall_app. split; [assumption | repeat constructor; assumption].
Qed.

Lemma padToEven_even (text : cstring) : Nat.Even (length (padToEven text)).
Proof.
  apply mod2_Even. unfold padToEven.
  destruct (Nat.eqb_spec (length text mod 2) 1) as [H | H].
  - rewrite length_app, Nat.add_1_r. apply mod2_succ, H.
  - destruct (mod2_cases (length text)); [assumption | contradiction].
Qed.

Lemma padToEven_id (text : cstring) : Nat.Even (length text) → padToEven text = text.
Proof.
  intros H%mod2_Even. unfold padToEven. rewrite H. reflexivity.
Qed.

Lemma normalize_permitted (text : cstring) (isEncryption : bool) :
  Forall (fun c => permittedb flag c = true)
    (normalizeAndPrepareText text flag isEncryption).
Proof.
  unfold normalizeAndPrepareText.
  apply padToEven_Forall; [apply padding_permitted |].
  destruct isEncryption; [| apply filterText_permitted].
  rewrite pairLoop_pairUp.
  apply pairUp_Forall; [apply padding_permitted | apply filterText_permitted].
Qed.

Lemma normalize_even (text : cstring) (isEncryption : bool) :
  Nat.Even (length (normalizeAndPrepareText text flag isEncryption)).
Proof. apply padToEven_even. Qed.

(** A text of permitted letters and even length is ready for decryption
    as it is. *)
Lemma normalize_decrypt_id (text : cstring) :
  Forall (fun c => permittedb flag c = true) text → Nat.Even (length text) →
  normalizeAndPrepareText text flag false = text.
Proof.
  intros Hp He. unfold normalizeAndPrepareText.
  rewrite (filterText_id text Hp). apply padToEven_id, He.
Qed.
End Prepared.

(** ** A whole text of digraphs *)

Section Transform.
Variable g : Grid.
Hypothesis Hshape : grid_shape g.

Lemma transformPairs_shape (d : Z) (text : cstring) :
  Nat.Even (length (transformPairs g d text))
  ∧ Forall (fun c => c ∈ grid_cells g) (transformPairs g d text).
Proof.
  induction text as [| a | a b rest [IHe IHf]] using pairs_ind; simpl;
    [split; [exists 0; reflexivity | constructor] ..|].
  destruct (transformPair_shape g Hshape d a b) as [-> | (x & y & -> & Hx & Hy)]; simpl.
  - split; assumption.
  - split; [| repeat (constructor; [assumption |]); assumption].
    apply mod2_Even. rewrite mod2_succ_succ. apply mod2_Even, IHe.
Qed.

(** A last letter without a partner is not read. *)
Lemma transformPairs_trailing (d : Z) (text : cstring) (c : char) :
  Nat.Even (length text) → transformPairs g d (text ++ [c]) = transformPairs g d text.
Proof.
  induction text as [| a | a b rest IH] using pairs_ind; simpl; intros He.
  - reflexivity.
  - destruct He as [m Hm]. lia.
  - rewrite IH; [reflexivity |].
    apply mod2_Even. apply mod2_Even in He. rewrite mod2_succ_succ in He. exact He.
Qed.

Hypothesis Hnodup : NoDup (grid_cells g).

(** Over letters of the grid the shift by [-d] undoes the shift by [d]. *)
Lemma transformPairs_inverse (d : Z) (text : cstring) :
  (d = 1 ∨ d = -1)%Z →
  Forall (fun c => c ∈ grid_cells g) text → Nat.Even (length text) →
  length (transformPairs g d text) = length text
  ∧ transformPairs g (- d) (transformPairs g d text) = text.
Proof.
  intros Hd. induction text as [| a | a b rest IH] using pairs_ind; simpl; intros Hin He.
  - split; reflexivity.
  - destruct He as [m Hm]. lia.
  - apply Forall_cons in Hin as [Ha Hin]. apply Forall_cons in Hin as [Hb Hin].
    apply mod2_Even in He. rewrite mod2_succ_succ in He. apply mod2_Even in He.
    destruct (IH Hin He) as [IHl IHt].
    destruct (transformPair_inverse g Hshape Hnodup d a b Hd Ha Hb)
      as (x & y & -> & _ & _ & Hback).
    simpl. rewrite Hback, IHl, IHt. split; reflexivity.
Qed.
End Transform.

(** ** The grid of a key *)

Lemma buildCipherGrid_cells (key : cstring) (flag : bool) (g0 : Grid) :
  grid_shape g0 →
  ∃ g, buildCipherGrid key flag g0 = Some g
       ∧ grid_shape g ∧ grid_cells g = uniqueCharacters key flag.
Proof. intros Hg0. apply fillGrid_full; [apply uniqueCharacters_length | exact Hg0]. Qed.

Lemma blank_grid_shape : grid_shape blank_grid.
Proof. split; [reflexivity | repeat constructor]. Qed.

Lemma buildGrid_cells (key : cstring) (flag : bool) :
  ∃ g, buildGrid key flag = Some g
       ∧ grid_shape g ∧ grid_cells g = uniqueCharacters key flag.
Proof. apply buildCipherGrid_cells, blank_grid_shape. Qed.

(** The grid that the fill of a fresh object writes for 25 unique characters. *)
Lemma buildGrid_of_unique (key key' : cstring) (flag : bool) :
  uniqueCharacters key flag = uniqueCharacters key' flag →
  buildGrid key flag = buildGrid key' flag.
Proof. unfold buildGrid, buildCipherGrid. intros ->. reflexivity. Qed.

Lemma permitted_in_grid (key : cstring) (flag : bool) (g : Grid) (text : cstring) :
  grid_cells g = uniqueCharacters key flag →
  Forall (fun c => permittedb flag c = true) text ↔ Forall (fun c => c ∈ grid_cells g) text.
Proof.
  intros ->. apply Forall_iff. intros c. symmetry. apply uniqueCharacters_elem.
Qed.

(** Encrypting a prepared text and decrypting the result, for any text. *)
Lemma round_trip_any (text key : cstring) (flag : bool) :
  ∃ grid, buildGrid key flag = Some grid
    ∧ transformDigraphPairs grid DECRYPT_DIRECTION
        (normalizeAndPrepareText
           (transformDigraphPairs grid ENCRYPT_DIRECTION
              (normalizeAndPrepareText text flag true))
           flag false)
      = normalizeAndPrepareText text flag true.
Proof.
  destruct (buildGrid_cells key flag) as (g & Hg & Hshape & Hcells).
  exists g. split; [exact Hg |].
  assert (NoDup (grid_cells g)) as Hnd by (rewrite Hcells; apply uniqueCharacters_NoDup).
  rewrite !transformDigraphPairs_pairs.
  set (prepared := normalizeAndPrepareText text flag true).
  assert (Forall (fun c => c ∈ grid_cells g) prepared) as Hin.
  { apply (permitted_in_grid key flag g _ Hcells), normalize_permitted. }
  pose proof (normalize_even flag text true) as He. fold prepared in He.
  destruct (transformPairs_inverse g Hshape Hnd ENCRYPT_DIRECTION prepared
              (or_introl eq_refl) Hin He) as [Hlen Hback].
  destruct (transformPairs_shape g Hshape ENCRYPT_DIRECTION prepared) as [_ Hcipher].
  rewrite normalize_decrypt_id.
  - exact Hback.
  - apply (permitted_in_grid key flag g _ Hcells), Hcipher.
  - rewrite Hlen. exact He.
Qed.

(** ** First occurrences *)

Lemma memb_str_find (acc : cstring) (u : char) :
  memb u acc = match str_find acc u with Some _ => true | None => false end.
Proof.
  unfold memb. induction acc as [|x acc IH]; simpl; [reflexivity |].
  rewrite (Ascii.eqb_sym u x). destruct (Ascii.eqb x u); simpl; [reflexivity |].
  rewrite IH. destruct (str_find acc u); reflexivity.
Qed.

Lemma memb_app (u : char) (l1 l2 : cstring) : memb u (l1 ++ l2) = memb u l1 || memb u l2.
Proof. apply existsb_app. Qed.

Lemma filter_filter_andb (f h : char → bool) (l : cstring) :
  List.filter f (List.filter h l) = List.filter (fun x => h x && f x) l.
Proof.
  induction l as [|x l IH]; simpl; [reflexivity |].
  destruct (h x); simpl; [destruct (f x) |]; rewrite IH; reflexivity.
Qed.

Lemma filter_all (f : char → bool) (l : cstring) :
  (∀ x, f x = true) → List.filter f l = l.
Proof.
  intros Hf. induction l as [|x l IH]; simpl; [reflexivity |].
  rewrite Hf, IH. reflexivity.
Qed.

(** The loop that collects the unique characters keeps first occurrences. *)
Lemma fold_unique_keepFirst (flag : bool) (stream acc : cstring) :
  fold_left (uniqueStep flag) stream acc
  = acc ++ List.filter (fun u => negb (memb u acc)) (keepFirst (omap (keptChar flag) stream)).
Proof.
  revert acc. induction stream as [|c stream IH]; intros acc.
  - simpl. symmetry. apply app_nil_r.
  - change (fold_left (uniqueStep flag) (c :: stream) acc)
      with (fold_left (uniqueStep flag) stream (uniqueStep flag acc c)).
    change (omap (keptChar flag) (c :: stream))
      with (match keptChar flag c with
            | Some u => u :: omap (keptChar flag) stream
            | None => omap (keptChar flag) stream
            end).
    rewrite uniqueStep_kept, IH. destruct (keptChar flag c) as [u|]; [| reflexivity].
    cbn [keepFirst List.filter]. rewrite (memb_str_find acc u).
    destruct (str_find acc u) eqn:E; cbn [negb].
    + rewrite filter_filter_andb. f_equal. apply filter_ext. intros x.
      destruct (Ascii.eqb_spec x u) as [->|Hne]; [| reflexivity].
      rewrite (memb_str_find acc u), E. reflexivity.
    + rewrite <- app_assoc. cbn [app]. do 2 f_equal.
      rewrite filter_filter_andb. apply filter_ext. intros x.
      rewrite memb_app. unfold memb at 2. cbn [existsb]. rewrite orb_false_r.
      rewrite negb_orb. apply andb_comm.
Qed.

Lemma uniqueCharacters_keepFirst (key : cstring) (flag : bool) :
  uniqueCharacters key flag = keepFirst (omap (keptChar flag) (keyStream key)).
Proof.
  unfold uniqueCharacters. rewrite fold_unique_keepFirst. cbn [app].
  apply filter_all. reflexivity.
Qed.

(** ** The whole operation *)

(** Two grids with the same cells are the same grid. *)
Lemma grid_cells_inj (g g' : Grid) :
  grid_shape g → grid_shape g' → grid_cells g = grid_cells g' → g = g'.
Proof.
  intros H H' E. apply grid_shape_inv in H. apply grid_shape_inv in H'.
  open_grid g H. open_grid g' H'. unfold grid_cells in E. simpl in E.
  injection E; intros; subst; reflexivity.
Qed.

(** [process] rebuilds the whole grid: the object it runs on does not matter,
    and it always returns. *)
Lemma process_total (key text : cstring) (flag isEncryption : bool) (self : PlayfairCipher) :
  grid_shape (cipherGrid self) →
  ∃ g, buildGrid key flag = Some g
       ∧ process key text flag isEncryption self
         = Some {| processedText :=
                     transformDigraphPairs g
                       (if isEncryption then ENCRYPT_DIRECTION else DECRYPT_DIRECTION)
                       (normalizeAndPrepareText text flag isEncryption);
                   cipherGrid := g |}.
Proof.
  intros Hself.
  destruct (buildGrid_cells key flag) as (g & Hg & Hshape & Hcells).
  destruct (buildCipherGrid_cells key flag _ Hself) as (g' & Hg' & Hshape' & Hcells').
  exists g. split; [exact Hg |]. unfold process. rewrite Hg'.
  rewrite (grid_cells_inj g' g Hshape' Hshape) by congruence. reflexivity.
Qed.

(** An empty text gives an empty result. *)
Lemma process_empty (key : cstring) (flag isEncryption : bool) :
  ∃ out, process key [] flag isEncryption newCipher = Some out ∧ processedText out = [].
Proof.
  destruct (process_total key [] flag isEncryption newCipher blank_grid_shape)
    as (g & _ & ->).
  eexists. split; [reflexivity |]. destruct isEncryption; reflexivity.
Qed.

(** Encrypting with [process] and decrypting its output with the same object,
    key and mode gives the prepared text. *)
Lemma process_round_trip (key text : cstring) (flag : bool) :
  ∃ enc dec,
    process key text flag true newCipher = Some enc
    ∧ process key (processedText enc) flag false enc = Some dec
    ∧ processedText dec = normalizeAndPrepareText text flag true.
Proof.
  destruct (round_trip_any text key flag) as (g & Hg & Hback).
  destruct (process_total key text flag true newCipher blank_grid_shape)
    as (g1 & Hg1 & Henc).
  assert (g1 = g) as -> by congruence.
  destruct (buildGrid_cells key flag) as (g2 & Hg2 & Hshape & _).
  assert (g2 = g) as -> by congruence.
  eexists _, _. split; [exact Henc |]. simpl.
  destruct (process_total key
              (transformDigraphPairs g ENCRYPT_DIRECTION
                 (normalizeAndPrepareText text flag true))
              flag false
              {| processedText :=
                   transformDigraphPairs g ENCRYPT_DIRECTION
                     (normalizeAndPrepareText text flag true);
                 cipherGrid := g |} Hshape) as (g3 & Hg3 & Hdec).
  assert (g3 = g) as -> by congruence.
  split; [exact Hdec |]. simpl. exact Hback.
Qed.

(** * The claims *)

(** ** Round trip *)

(** C1. Round trip: for a plaintext of letters only, without two equal
    adjacent letters and of even length, and for every key and mode, the grid
    of the key exists, and decrypting (direction -1) the re-normalized
    encryption (direction +1) of the prepared plaintext over that grid gives
    the prepared plaintext back. *)
Theorem round_trip (plaintext key : cstring) (mode : bool) :
  lettersOnly plaintext = true →
  noEqualAdjacent plaintext = true →
  Nat.Even (length plaintext) →
  ∃ grid, buildGrid key mode = Some grid
    ∧ transformDigraphPairs grid DECRYPT_DIRECTION
        (normalizeAndPrepareText
           (transformDigraphPairs grid ENCRYPT_DIRECTION
              (normalizeAndPrepareText plaintext mode true))
           mode false)
      = normalizeAndPrepareText plaintext mode true.
Proof. intros _ _ _. apply round_trip_any. Qed.

Lemma round_trip_witness :
  ∃ grid, buildGrid (lit "PLAYFAIR") MergeJintoI = Some grid
    ∧ transformDigraphPairs grid DECRYPT_DIRECTION
        (normalizeAndPrepareText
           (transformDigraphPairs grid ENCRYPT_DIRECTION
              (normalizeAndPrepareText (lit "HideGold") MergeJintoI true))
           MergeJintoI false)
      = normalizeAndPrepareText (lit "HideGold") MergeJintoI true.
Proof.
  apply (round_trip (lit "HideGold") (lit "PLAYFAIR") MergeJintoI).
  - vm_compute. reflexivity.
  - vm_compute. reflexivity.
  - exists 4. reflexivity.
Defined.

(** ** Grid construction *)

Lemma keptChar_J (c : char) :
  Ascii.eqb c "J"%char || Ascii.eqb c "j"%char = true → keptChar MergeJintoI c = None.
Proof.
  intros [H | H]%orb_true_iff; apply Ascii.eqb_eq in H; subst c; reflexivity.
Qed.

Lemma fold_unique_withoutJ (key acc : cstring) :
  fold_left (uniqueStep MergeJintoI) key acc
  = fold_left (uniqueStep MergeJintoI) (withoutJ key) acc.
Proof.
  revert acc. induction key as [|c key IH]; intros acc; [reflexivity |].
  unfold withoutJ. simpl.
  destruct (Ascii.eqb c "J"%char || Ascii.eqb c "j"%char) eqn:E; simpl.
  - rewrite uniqueStep_kept, (keptChar_J c E). apply IH.
  - apply IH.
Qed.

(** C2, as the code has it. Under MergeJintoI the grid construction skips
    every J of the key-plus-alphabet stream; none is rewritten to I.  So a
    key and the key without its 'J'/'j' characters (when that leaves a
    character) build the same grid; the key "JA" builds the grid of "A", in
    which A takes the first cell and I stands at its alphabetical place,
    row 1, column 3. *)
Theorem J_skipped_in_key (key : cstring) :
  withoutJ key ≠ [] →
  buildGrid key MergeJintoI = buildGrid (withoutJ key) MergeJintoI
  ∧ buildGrid (lit "JA") MergeJintoI = buildGrid (lit "A") MergeJintoI
  ∧ ∃ g, buildGrid (lit "JA") MergeJintoI = Some g
         ∧ grid_get g 0 0 = "A"%char ∧ grid_get g 1 3 = "I"%char.
Proof.
  intros Hne. split; [| split; [vm_compute; reflexivity |]].
  2: { exists (map lit ["ABCDE"; "FGHIK"; "LMNOP"; "QRSTU"; "VWXYZ"]%string).
       repeat split; vm_compute; reflexivity. }
  apply buildGrid_of_unique. unfold uniqueCharacters, keyStream.
  destruct (withoutJ key) as [|c' key'] eqn:E; [contradiction |].
  destruct key as [|c key]; [discriminate E |].
  rewrite !fold_left_app, <- E. f_equal. apply fold_unique_withoutJ.
Qed.

Lemma J_skipped_in_key_witness :
  buildGrid (lit "JAjB") MergeJintoI = buildGrid (withoutJ (lit "JAjB")) MergeJintoI
  ∧ buildGrid (lit "JA") MergeJintoI = buildGrid (lit "A") MergeJintoI
  ∧ ∃ g, buildGrid (lit "JA") MergeJintoI = Some g
         ∧ grid_get g 0 0 = "A"%char ∧ grid_get g 1 3 = "I"%char.
Proof. apply (J_skipped_in_key (lit "JAjB")). vm_compute. discriminate. Defined.

(** C2 as stated fails: the grid of "JA" is not the grid of "IA", and I does
    not stand in the first cell, where the J occurred. *)
Lemma J_not_rewritten_in_key :
  withIforJ (lit "JA") = lit "IA"
  ∧ buildGrid (lit "JA") MergeJintoI ≠ buildGrid (withIforJ (lit "JA")) MergeJintoI
  ∧ ∃ g, buildGrid (lit "JA") MergeJintoI = Some g ∧ grid_get g 0 0 ≠ "I"%char.
Proof.
  split; [reflexivity |]. split; [vm_compute; discriminate |].
  exists (map lit ["ABCDE"; "FGHIK"; "LMNOP"; "QRSTU"; "VWXYZ"]%string).
  split; [vm_compute; reflexivity | vm_compute; discriminate].
Qed.

(** C4. Grid uniqueness and totality: for every key and mode the fill reads
    within the 25 unique characters and succeeds; the grid has 5 rows of 5
    cells, its 25 cells are distinct, and they are exactly the letters of the
    alphabet other than the one the mode excludes. *)
Theorem grid_unique_total (key : cstring) (mode : bool) :
  length (uniqueCharacters key mode) = GRID_TOTAL_CELLS
  ∧ ∃ g, buildGrid key mode = Some g
      ∧ grid_shape g
      ∧ length (grid_cells g) = 25
      ∧ NoDup (grid_cells g)
      ∧ ∀ c, c ∈ grid_cells g ↔ c ∈ ALPHABET ∧ c ≠ excluded mode.
Proof.
  split; [apply uniqueCharacters_length |].
  destruct (buildGrid_cells key mode) as (g & Hg & Hshape & Hcells).
  exists g. split; [exact Hg |]. split; [exact Hshape |].
  split; [apply (grid_shape_length g Hshape) |].
  rewrite Hcells. split; [apply uniqueCharacters_NoDup |].
  intros c. rewrite uniqueCharacters_elem. apply permittedb_spec.
Qed.

(** C5. Mode exclusivity: under MergeJintoI no cell of the grid and no letter
    of the normalized text (filtered, or prepared for either direction) is J;
    under DropQ none is Q. *)
Theorem mode_exclusivity (key text : cstring) (isEncryption : bool) :
  (∃ g, buildGrid key MergeJintoI = Some g ∧ "J"%char ∉ grid_cells g)
  ∧ ("J"%char ∉ filterText text MergeJintoI)
  ∧ ("J"%char ∉ normalizeAndPrepareText text MergeJintoI isEncryption)
  ∧ (∃ g, buildGrid key DropQ = Some g ∧ "Q"%char ∉ grid_cells g)
  ∧ ("Q"%char ∉ filterText text DropQ)
  ∧ ("Q"%char ∉ normalizeAndPrepareText text DropQ isEncryption).
Proof.
  assert (∀ mode l, Forall (fun c => permittedb mode c = true) l → excluded mode ∉ l) as Hex.
  { intros mode l Hl Hin. rewrite Forall_forall in Hl. apply Hl in Hin.
    destruct mode; discriminate Hin. }
  assert (∀ mode, ∃ g, buildGrid key mode = Some g ∧ excluded mode ∉ grid_cells g) as Hgrid.
  { intros mode. destruct (buildGrid_cells key mode) as (g & Hg & _ & Hcells).
    exists g. split; [exact Hg |]. rewrite Hcells. intros Hin.
    apply uniqueCharacters_elem in Hin. destruct mode; discriminate Hin. }
  split; [apply (Hgrid MergeJintoI) |].
  split; [apply (Hex MergeJintoI), filterText_permitted |].
  split; [apply (Hex MergeJintoI), normalize_permitted |].
  split; [apply (Hgrid DropQ) |].
  split; [apply (Hex DropQ), filterText_permitted |].
  apply (Hex DropQ), normalize_permitted.
Qed.

(** ** Text preparation *)



Lemma filterText_normalizedLetters (text : cstring) (mode : bool) :
  filterText text mode = normalizedLetters text mode.
Proof.
  rewrite filterText_omap. unfold normalizedLetters.
  induction text as [|c text IH]; [destruct mode; reflexivity |].
  change (omap (mappedChar mode) (c :: text))
    with (match mappedChar mode c with
          | Some u => u :: omap (mappedChar mode) text
          | None => omap (mappedChar mode) text
          end).
  rewrite IH. unfold mappedChar. cbn [map List.filter].
  rewrite upper_of_uppercase, <- outside_letters_isLetter.
  destruct (outside_letters (uppercase c)); simpl; [reflexivity |].
  destruct mode; simpl.
  - rewrite andb_true_r, andb_false_r. destruct (Ascii.eqb (uppercase c) "J"); reflexivity.
  - rewrite andb_true_r, andb_false_r. destruct (Ascii.eqb (uppercase c) "Q"); reflexivity.
Qed.

Lemma odd_mod2 (n : nat) : Nat.odd n = (n mod 2 =? 1).
Proof.
  destruct (mod2_cases n) as [H | H]; rewrite H; simpl.
  - apply mod2_Even, Nat.even_spec in H. unfold Nat.odd. rewrite H. reflexivity.
  - apply Nat.odd_spec. exists (n / 2). pose proof (Nat.div_mod_eq n 2). lia.
Qed.

(** C6. Decryption preparation: the result is the normalized letter sequence,
    with one padding letter appended at the end exactly when that sequence has
    odd length; nothing is inserted between letters. *)
Theorem decrypt_preparation (text : cstring) (mode : bool) :
  normalizeAndPrepareText text mode false
  = if Nat.odd (length (normalizedLetters text mode))
    then normalizedLetters text mode ++ [PADDING_CHAR]
    else normalizedLetters text mode.
Proof.
  unfold normalizeAndPrepareText, padToEven.
  rewrite filterText_normalizedLetters, odd_mod2. reflexivity.
Qed.

(** C9. The padding example: "HELLO" under MergeJintoI prepares for
    encryption to H, E, L, X, L, O. *)
Theorem padding_example :
  normalizeAndPrepareText (lit "HELLO") MergeJintoI true = lit "HELXLO".
Proof. vm_compute. reflexivity. Qed.

(** ** Lookup and transformation *)

(** C7. Coordinate wrap-around: for every integer column and row the lookup
    reduces both indices modulo 5 into [0, 5) (-1 goes to 4 and 5 to 0) and
    returns the cell of the grid at the reduced indices. *)
Theorem wrap_around (g : Grid) (column row : Z) :
  grid_shape g →
  (wrapIndex column = (column mod 5)%Z ∧ (0 ≤ wrapIndex column < 5)%Z)
  ∧ (wrapIndex row = (row mod 5)%Z ∧ (0 ≤ wrapIndex row < 5)%Z)
  ∧ wrapIndex (-1) = 4%Z ∧ wrapIndex 5 = 0%Z
  ∧ getCharacterAtPosition g column row
    = grid_get g (Z.to_nat (row mod 5)) (Z.to_nat (column mod 5))
  ∧ getCharacterAtPosition g column row ∈ grid_cells g.
Proof.
  intros Hshape.
  split; [split; [apply wrapIndex_mod | apply wrapIndex_range] |].
  split; [split; [apply wrapIndex_mod | apply wrapIndex_range] |].
  split; [reflexivity |]. split; [reflexivity |].
  split; [| apply get_in_grid, Hshape].
  unfold getCharacterAtPosition. rewrite !wrapIndex_mod. reflexivity.
Qed.

Lemma playfairGrid_shape : grid_shape playfairGrid.
Proof. split; [reflexivity | repeat constructor]. Qed.

Lemma wrap_around_witness :
  (wrapIndex (-1) = ((-1) mod 5)%Z ∧ (0 ≤ wrapIndex (-1) < 5)%Z)
  ∧ (wrapIndex 7 = (7 mod 5)%Z ∧ (0 ≤ wrapIndex 7 < 5)%Z)
  ∧ wrapIndex (-1) = 4%Z ∧ wrapIndex 5 = 0%Z
  ∧ getCharacterAtPosition playfairGrid (-1) 7
    = grid_get playfairGrid (Z.to_nat (7 mod 5)) (Z.to_nat ((-1) mod 5))
  ∧ getCharacterAtPosition playfairGrid (-1) 7 ∈ grid_cells playfairGrid.
Proof. apply (wrap_around playfairGrid (-1) 7). exact playfairGrid_shape. Defined.

(** C8. Defensive skipping and even output: the transformation reads complete
    consecutive pairs only; a last letter without a partner and a pair with a
    letter that is not in the grid add nothing; the output has even length
    and holds cells of the grid only. *)
Theorem transform_defensive (g : Grid) (d : Z) (text : cstring) :
  grid_shape g →
  Nat.Even (length (transformDigraphPairs g d text))
  ∧ Forall (fun c => c ∈ grid_cells g) (transformDigraphPairs g d text)
  ∧ (∀ a b rest, transformDigraphPairs g d (a :: b :: rest)
                 = transformPair g d a b ++ transformDigraphPairs g d rest)
  ∧ (∀ c, Nat.Even (length text) →
          transformDigraphPairs g d (text ++ [c]) = transformDigraphPairs g d text)
  ∧ (∀ a b rest, a ∉ grid_cells g ∨ b ∉ grid_cells g →
                 transformDigraphPairs g d (a :: b :: rest) = transformDigraphPairs g d rest).
Proof.
  intros Hshape. rewrite transformDigraphPairs_pairs.
  split; [apply (transformPairs_shape g Hshape) |].
  split; [apply (transformPairs_shape g Hshape) |].
  split; [intros a b rest; rewrite !transformDigraphPairs_pairs; reflexivity |].
  split.
  - intros c He. rewrite transformDigraphPairs_pairs.
    apply (transformPairs_trailing g d text c He).
  - intros a b rest Habs. rewrite !transformDigraphPairs_pairs. simpl.
    rewrite (transformPair_absent g Hshape d a b Habs). reflexivity.
Qed.

Lemma transform_defensive_witness :
  Nat.Even (length (transformDigraphPairs playfairGrid 1 (lit "HIJDE")))
  ∧ Forall (fun c => c ∈ grid_cells playfairGrid)
      (transformDigraphPairs playfairGrid 1 (lit "HIJDE"))
  ∧ (∀ a b rest, transformDigraphPairs playfairGrid 1 (a :: b :: rest)
                 = transformPair playfairGrid 1 a b
                   ++ transformDigraphPairs playfairGrid 1 rest)
  ∧ (∀ c, Nat.Even (length (lit "HIJDE")) →
          transformDigraphPairs playfairGrid 1 (lit "HIJDE" ++ [c])
          = transformDigraphPairs playfairGrid 1 (lit "HIJDE"))
  ∧ (∀ a b rest, a ∉ grid_cells playfairGrid ∨ b ∉ grid_cells playfairGrid →
                 transformDigraphPairs playfairGrid 1 (a :: b :: rest)
                 = transformDigraphPairs playfairGrid 1 rest).
Proof. apply (transform_defensive playfairGrid 1 (lit "HIJDE")). exact playfairGrid_shape. Defined.

(** ** The default key *)

Lemma gridLetters_app (mode : bool) (l1 l2 : cstring) :
  gridLetters mode (l1 ++ l2) = gridLetters mode l1 ++ gridLetters mode l2.
Proof. unfold gridLetters. rewrite map_app. apply List.filter_app. Qed.

Lemma gridLetters_no_letters (mode : bool) (blank : cstring) :
  forallb (fun c => negb (isLetter (uppercase c))) blank = true →
  gridLetters mode blank = [].
Proof.
  unfold gridLetters. induction blank as [|c blank IH]; [reflexivity |].
  cbn [forallb map List.filter]. intros [Hc Hblank]%andb_true_iff.
  apply negb_true_iff in Hc. rewrite Hc. exact (IH Hblank).
Qed.

Lemma alphabet_gridLetters (mode : bool) :
  keepFirst (gridLetters mode ALPHABET)
  = List.filter (fun c => negb (Ascii.eqb c (excluded mode))) ALPHABET.
Proof. destruct mode; vm_compute; reflexivity. Qed.

(** C10. The default key is the literal "KEYWORD": the empty key builds the
    grid of the key "KEYWORD".  Only the empty key is replaced: every key
    that is not empty is used as it is (its grid holds the first occurrences
    of the letters of the key followed by the alphabet, without any letter of
    a default key), so a key that is not empty and has no letter builds the
    alphabetical grid of the mode, which is not the grid of the empty key. *)
Theorem default_key (key blank : cstring) (mode : bool) :
  key ≠ [] →
  blank ≠ [] →
  forallb (fun c => negb (isLetter (uppercase c))) blank = true →
  DEFAULT_KEY = lit "KEYWORD"
  ∧ buildGrid [] mode = buildGrid (lit "KEYWORD") mode
  ∧ keyStream key = key ++ ALPHABET
  ∧ (∃ g, buildGrid key mode = Some g
          ∧ grid_cells g = keepFirst (gridLetters mode (key ++ ALPHABET)))
  ∧ (∃ g, buildGrid blank mode = Some g
          ∧ grid_cells g
            = List.filter (fun c => negb (Ascii.eqb c (excluded mode))) ALPHABET)
  ∧ buildGrid blank mode ≠ buildGrid [] mode.
Proof.
  intros Hne Hbne Hblank.
  assert (∀ k, k ≠ [] → keyStream k = k ++ ALPHABET) as Hstream.
  { intros k Hk. destruct k; [contradiction | reflexivity]. }
  assert (∀ k, k ≠ [] →
            uniqueCharacters k mode = keepFirst (gridLetters mode (k ++ ALPHABET))) as Hu.
  { intros k Hk. rewrite uniqueCharacters_keepFirst, omap_keptChar, (Hstream k Hk).
    reflexivity. }
  split; [reflexivity |].
  split.
  { apply buildGrid_of_unique. unfold uniqueCharacters.
    change (keyStream []) with (keyStream (lit "KEYWORD")). reflexivity. }
  split; [apply Hstream, Hne |].
  split.
  { destruct (buildGrid_cells key mode) as (g & Hg & _ & Hcells).
    exists g. split; [exact Hg |]. rewrite Hcells. apply Hu, Hne. }
  destruct (buildGrid_cells blank mode) as (g & Hg & _ & Hcells).
  rewrite (Hu blank Hbne), gridLetters_app, (gridLetters_no_letters mode blank Hblank),
    app_nil_l, alphabet_gridLetters in Hcells.
  split; [exists g; split; assumption |].
  rewrite Hg. intros Heq.
  destruct (buildGrid_cells [] mode) as (g' & Hg' & _ & Hcells').
  rewrite Hg' in Heq. injection Heq as <-. rewrite Hcells in Hcells'.
  destruct mode; vm_compute in Hcells'; discriminate Hcells'.
Qed.

Lemma default_key_witness :
  DEFAULT_KEY = lit "KEYWORD"
  ∧ buildGrid [] DropQ = buildGrid (lit "KEYWORD") DropQ
  ∧ keyStream (lit "Playfair") = lit "Playfair" ++ ALPHABET
  ∧ (∃ g, buildGrid (lit "Playfair") DropQ = Some g
          ∧ grid_cells g = keepFirst (gridLetters DropQ (lit "Playfair" ++ ALPHABET)))
  ∧ (∃ g, buildGrid (lit "2 + 2 = 4") DropQ = Some g
          ∧ grid_cells g
            = List.filter (fun c => negb (Ascii.eqb c (excluded DropQ))) ALPHABET)
  ∧ buildGrid (lit "2 + 2 = 4") DropQ ≠ buildGrid [] DropQ.
Proof.
  apply (default_key (lit "Playfair") (lit "2 + 2 = 4") DropQ).
  - vm_compute. discriminate.
  - vm_compute. discriminate.
  - vm_compute. reflexivity.
Defined.

(** * Further properties of the code *)

(** ** The whole operation, continued *)

Lemma encrypted_length (key text : cstring) (flag isEncryption : bool) (g : Grid) (d : Z) :
  (d = 1 ∨ d = -1)%Z →
  buildGrid key flag = Some g →
  length (transformDigraphPairs g d (normalizeAndPrepareText text flag isEncryption))
  = length (normalizeAndPrepareText text flag isEncryption)
  ∧ Forall (fun c => permittedb flag c = true)
      (transformDigraphPairs g d (normalizeAndPrepareText text flag isEncryption)).
Proof.
  intros Hd Hg.
  destruct (buildGrid_cells key flag) as (g' & Hg' & Hshape & Hcells).
  assert (g' = g) as -> by congruence.
  assert (NoDup (grid_cells g)) as Hnd by (rewrite Hcells; apply uniqueCharacters_NoDup).
  rewrite transformDigraphPairs_pairs.
  set (prepared := normalizeAndPrepareText text flag isEncryption).
  assert (Forall (fun c => c ∈ grid_cells g) prepared) as Hin.
  { apply (permitted_in_grid key flag g _ Hcells), normalize_permitted. }
  pose proof (normalize_even flag text isEncryption) as He. fold prepared in He.
  destruct (transformPairs_inverse g Hshape Hnd d prepared Hd Hin He) as [Hlen _].
  split; [exact Hlen |].
  apply (permitted_in_grid key flag g _ Hcells), (transformPairs_shape g Hshape).
Qed.

(** [process] never takes the defensive branch: every prepared letter is in
    the grid, so the result has the even length of the prepared text, and its
    letters are letters of the alphabet other than the excluded one. *)
Theorem process_output_letters (key text : cstring) (flag isEncryption : bool) :
  ∃ out, process key text flag isEncryption newCipher = Some out
    ∧ length (processedText out)
      = length (normalizeAndPrepareText text flag isEncryption)
    ∧ Nat.Even (length (processedText out))
    ∧ Forall (fun c => c ∈ ALPHABET ∧ c ≠ excluded flag) (processedText out).
Proof.
  destruct (process_total key text flag isEncryption newCipher blank_grid_shape)
    as (g & Hg & ->).
  eexists. split; [reflexivity |]. simpl.
  assert (((if isEncryption then ENCRYPT_DIRECTION else DECRYPT_DIRECTION) = 1
           ∨ (if isEncryption then ENCRYPT_DIRECTION else DECRYPT_DIRECTION) = -1)%Z) as Hd
    by (destruct isEncryption; [left | right]; reflexivity).
  destruct (encrypted_length key text flag isEncryption g _ Hd Hg) as [Hlen Hperm].
  split; [exact Hlen |]. split; [rewrite Hlen; apply normalize_even |].
  eapply Forall_impl; [exact Hperm |]. intros c Hc. apply permittedb_spec, Hc.
Qed.

(** [process] fills every cell of the grid anew: what it returns does not
    depend on the object it runs on, whatever its grid and text were. *)
Theorem process_ignores_prior_state (key text : cstring) (flag isEncryption : bool)
    (self self' : PlayfairCipher) :
  grid_shape (cipherGrid self) → grid_shape (cipherGrid self') →
  is_Some (process key text flag isEncryption self)
  ∧ process key text flag isEncryption self = process key text flag isEncryption self'.
Proof.
  intros H H'.
  destruct (process_total key text flag isEncryption self H) as (g & Hg & ->).
  destruct (process_total key text flag isEncryption self' H') as (g' & Hg' & ->).
  assert (g' = g) as -> by congruence. split; [eauto | reflexivity].
Qed.

Lemma process_ignores_prior_state_witness :
  is_Some (process (lit "PLAYFAIR") (lit "HIDE") MergeJintoI true newCipher)
  ∧ process (lit "PLAYFAIR") (lit "HIDE") MergeJintoI true newCipher
    = process (lit "PLAYFAIR") (lit "HIDE") MergeJintoI true
        {| processedText := lit "OLD"; cipherGrid := playfairGrid |}.
Proof.
  apply (process_ignores_prior_state (lit "PLAYFAIR") (lit "HIDE") MergeJintoI true
           newCipher {| processedText := lit "OLD"; cipherGrid := playfairGrid |}).
  - exact blank_grid_shape.
  - exact playfairGrid_shape.
Defined.

Lemma filterText_noLetters (flag : bool) (text : cstring) :
  noLetters flag text = true → filterText text flag = [].
Proof.
  rewrite filterText_omap. induction text as [|c text IH]; [reflexivity |].
  unfold noLetters. simpl. intros [Hc Htext]%andb_true_iff.
  change (match mappedChar flag c with
          | Some u => u :: omap (mappedChar flag) text
          | None => omap (mappedChar flag) text
          end = []).
  destruct (mappedChar flag c); [discriminate Hc | apply IH, Htext].
Qed.

(** A text without any letter that the mode keeps (an empty text, digits and
    punctuation, or only Q under DropQ) gives an empty result, for every key
    and in both directions; nothing is padded. *)
Theorem process_without_letters (key text : cstring) (flag isEncryption : bool) :
  noLetters flag text = true →
  normalizeAndPrepareText text flag isEncryption = []
  ∧ ∃ out, process key text flag isEncryption newCipher = Some out
           ∧ processedText out = [].
Proof.
  intros Hno.
  assert (normalizeAndPrepareText text flag isEncryption = []) as Hnorm.
  { unfold normalizeAndPrepareText. rewrite (filterText_noLetters flag text Hno).
    destruct isEncryption; reflexivity. }
  split; [exact Hnorm |].
  destruct (process_total key text flag isEncryption newCipher blank_grid_shape)
    as (g & _ & ->).
  eexists. split; [reflexivity |]. simpl. rewrite Hnorm. reflexivity.
Qed.

Lemma process_without_letters_witness :
  normalizeAndPrepareText (lit "Qq 1, 2!") DropQ true = []
  ∧ ∃ out, process (lit "PLAYFAIR") (lit "Qq 1, 2!") DropQ true newCipher = Some out
           ∧ processedText out = [].
Proof.
  apply (process_without_letters (lit "PLAYFAIR") (lit "Qq 1, 2!") DropQ true).
  vm_compute. reflexivity.
Defined.

(** ** The digraph rule *)

(** On even-length texts over a grid of distinct letters the two directions
    undo each other, in either order. *)
Theorem transform_directions_inverse (g : Grid) (text : cstring) :
  grid_shape g → NoDup (grid_cells g) →
  Forall (fun c => c ∈ grid_cells g) text → Nat.Even (length text) →
  transformDigraphPairs g DECRYPT_DIRECTION (transformDigraphPairs g ENCRYPT_DIRECTION text)
  = text
  ∧ transformDigraphPairs g ENCRYPT_DIRECTION (transformDigraphPairs g DECRYPT_DIRECTION text)
    = text.
Proof.
  intros Hshape Hnd Hin He. rewrite !transformDigraphPairs_pairs. split.
  - apply (transformPairs_inverse g Hshape Hnd ENCRYPT_DIRECTION text); auto.
  - apply (transformPairs_inverse g Hshape Hnd DECRYPT_DIRECTION text);
      [right; reflexivity | assumption | assumption].
Qed.

Lemma transform_directions_inverse_witness :
  transformDigraphPairs playfairGrid DECRYPT_DIRECTION
    (transformDigraphPairs playfairGrid ENCRYPT_DIRECTION (lit "HIDEGOLD"))
  = lit "HIDEGOLD"
  ∧ transformDigraphPairs playfairGrid ENCRYPT_DIRECTION
      (transformDigraphPairs playfairGrid DECRYPT_DIRECTION (lit "HIDEGOLD"))
    = lit "HIDEGOLD".
Proof.
  apply (transform_directions_inverse playfairGrid (lit "HIDEGOLD")).
  - exact playfairGrid_shape.
  - apply (bool_decide_unpack _). vm_compute. exact I.
  - apply (bool_decide_unpack _). vm_compute. exact I.
  - exists 4. reflexivity.
Defined.

Section Substitution.
Variable g : Grid.
Hypothesis Hshape : grid_shape g.
Hypothesis Hnodup : NoDup (grid_cells g).

Local Open Scope Z_scope.

(** Two lookups that wrap to different positions read different letters. *)
Lemma get_differs (column row column' row' : Z) :
  column mod 5 ≠ column' mod 5 ∨ row mod 5 ≠ row' mod 5 →
  getCharacterAtPosition g column row ≠ getCharacterAtPosition g column' row'.
Proof.
  intros Hne Heq.
  pose proof (find_get g column row Hshape Hnodup) as H1.
  pose proof (find_get g column' row' Hshape Hnodup) as H2.
  rewrite Heq, H2 in H1. injection H1 as Hc Hr. destruct Hne as [Hne | Hne]; congruence.
Qed.

Lemma shift_moves (c d : Z) : d = 1 ∨ d = -1 → (c + d) mod 5 ≠ c mod 5.
Proof.
  intros Hd H.
  assert ((c + d - c) mod 5 = 0) as H0 by (rewrite Zminus_mod, H, Z.sub_diag; reflexivity).
  replace (c + d - c) with d in H0 by lia.
  destruct Hd; subst d; discriminate H0.
Qed.

(** Neither letter of a digraph stays what it was. *)
Lemma transformPair_changes (d : Z) (a b : char) :
  d = 1 ∨ d = -1 → a ∈ grid_cells g → b ∈ grid_cells g →
  ∃ x y, transformPair g d a b = [x; y] ∧ x ≠ a ∧ y ≠ b.
Proof.
  intros Hd Ha Hb.
  apply (find_in_grid g _ Hshape) in Ha as [[ca ra] Ha].
  apply (find_in_grid g _ Hshape) in Hb as [[cb rb] Hb].
  destruct (get_find g a ca ra Hshape Ha) as [[Hca Hra] Hgeta].
  destruct (get_find g b cb rb Hshape Hb) as [[Hcb Hrb] Hgetb].
  assert (getCharacterAtPosition g ca ra = a) as Ea
    by (apply Hgeta; apply Z.mod_small; assumption).
  assert (getCharacterAtPosition g cb rb = b) as Eb
    by (apply Hgetb; apply Z.mod_small; assumption).
  unfold transformPair. rewrite Ha, Hb.
  destruct (Z.eqb_spec ra rb) as [Hrow | Hrow];
    [| destruct (Z.eqb_spec ca cb) as [Hcol | Hcol]];
    eexists _, _; (split; [reflexivity |]);
    (split; [rewrite <- Ea at 1 | rewrite <- Eb at 1]); apply get_differs.
  - left. apply shift_moves, Hd.
  - left. apply shift_moves, Hd.
  - right. apply shift_moves, Hd.
  - right. apply shift_moves, Hd.
  - left. rewrite !Z.mod_small by assumption. congruence.
  - left. rewrite !Z.mod_small by assumption. congruence.
Qed.

Local Close Scope Z_scope.
End Substitution.

(** Over a grid of distinct letters the transformation changes the letter at
    every position of an even-length text of grid letters, in both
    directions: no letter stands for itself. *)
Theorem transform_changes_every_letter (g : Grid) (d : Z) (text : cstring) :
  grid_shape g → NoDup (grid_cells g) → (d = 1 ∨ d = -1)%Z →
  Forall (fun c => c ∈ grid_cells g) text → Nat.Even (length text) →
  Forall2 (fun plain cipher => cipher ≠ plain) text (transformDigraphPairs g d text).
Proof.
  intros Hshape Hnd Hd. rewrite transformDigraphPairs_pairs.
  induction text as [| a | a b rest IH] using pairs_ind; simpl; intros Hin He.
  - constructor.
  - destruct He as [m Hm]. lia.
  - apply Forall_cons in Hin as [Ha Hin]. apply Forall_cons in Hin as [Hb Hin].
    apply mod2_Even in He. rewrite mod2_succ_succ in He. apply mod2_Even in He.
    destruct (transformPair_changes g Hshape Hnd d a b Hd Ha Hb) as (x & y & -> & Hx & Hy).
    simpl. constructor; [exact Hx |]. constructor; [exact Hy |]. apply IH; assumption.
Qed.

Lemma transform_changes_every_letter_witness :
  Forall2 (fun plain cipher => cipher ≠ plain) (lit "HIDEGOLD")
    (transformDigraphPairs playfairGrid 1 (lit "HIDEGOLD")).
Proof.
  apply (transform_changes_every_letter playfairGrid 1 (lit "HIDEGOLD")).
  - exact playfairGrid_shape.
  - apply (bool_decide_unpack _). vm_compute. exact I.
  - left. reflexivity.
  - apply (bool_decide_unpack _). vm_compute. exact I.
  - exists 4. reflexivity.
Defined.

(** The rule is symmetric in the two letters: a digraph read backwards is
    transformed to the result read backwards, on every grid and for every
    shift; so a doubled letter is transformed to a doubled letter. *)
Theorem transform_reversed_digraph (g : Grid) (d : Z) (a b : char) :
  transformPair g d b a = reverse (transformPair g d a b)
  ∧ (transformPair g d a a = [] ∨ ∃ x, transformPair g d a a = [x; x]).
Proof.
  split.
  - unfold transformPair.
    destruct (findCharacterPosition g a) as [[ca ra]|],
             (findCharacterPosition g b) as [[cb rb]|]; try reflexivity.
    rewrite (Z.eqb_sym rb ra), (Z.eqb_sym cb ca).
    destruct (ra =? rb)%Z; [reflexivity |]. destruct (ca =? cb)%Z; reflexivity.
  - unfold transformPair.
    destruct (findCharacterPosition g a) as [[ca ra]|]; [| left; reflexivity].
    rewrite Z.eqb_refl. right. eexists. reflexivity.
Qed.

Lemma transformPairs_app (g : Grid) (d : Z) (text1 text2 : cstring) :
  Nat.Even (length text1) →
  transformPairs g d (text1 ++ text2) = transformPairs g d text1 ++ transformPairs g d text2.
Proof.
  induction text1 as [| a | a b rest IH] using pairs_ind; simpl; intros He.
  - reflexivity.
  - destruct He as [m Hm]. lia.
  - apply mod2_Even in He. rewrite mod2_succ_succ in He. apply mod2_Even in He.
    rewrite (IH He), app_assoc. reflexivity.
Qed.

(** Every digraph is transformed on its own: the transformation of a text
    that follows an even-length text does not depend on it. *)
Theorem transform_concat (g : Grid) (d : Z) (text1 text2 : cstring) :
  Nat.Even (length text1) →
  transformDigraphPairs g d (text1 ++ text2)
  = transformDigraphPairs g d text1 ++ transformDigraphPairs g d text2.
Proof. intros He. rewrite !transformDigraphPairs_pairs. apply transformPairs_app, He. Qed.

Lemma transform_concat_witness :
  transformDigraphPairs playfairGrid 1 (lit "HIDE" ++ lit "GOLDX")
  = transformDigraphPairs playfairGrid 1 (lit "HIDE")
    ++ transformDigraphPairs playfairGrid 1 (lit "GOLDX").
Proof.
  apply (transform_concat playfairGrid 1 (lit "HIDE") (lit "GOLDX")).
  exists 2. reflexivity.
Defined.

(** ** Searching the grid *)

Lemma str_find_first (s : cstring) (c : char) (i : nat) :
  str_find s c = Some i → ∀ j, j < i → char_at s j ≠ c.
Proof.
  revert i. induction s as [|x s IH]; simpl; intros i; [discriminate |].
  destruct (Ascii.eqb_spec x c) as [->|Hne].
  - intros [= <-] j Hj. lia.
  - destruct (str_find s c) as [k|]; simpl; [| discriminate].
    intros [= <-] [|j] Hj; [exact Hne |]. apply (IH k eq_refl j). lia.
Qed.

(** The search returns the first cell, in row-major order, that holds the
    character, with both coordinates between 0 and 4, also when the grid
    repeats characters; it fails exactly when no cell holds it. *)
Theorem find_first_occurrence (g : Grid) (character : char) :
  grid_shape g →
  match findCharacterPosition g character with
  | Some (column, row) =>
      (0 ≤ column < 5 ∧ 0 ≤ row < 5)%Z
      ∧ grid_get g (Z.to_nat row) (Z.to_nat column) = character
      ∧ ∀ r c, r < GRID_SIZE → c < GRID_SIZE →
          r * GRID_SIZE + c < Z.to_nat row * GRID_SIZE + Z.to_nat column →
          grid_get g r c ≠ character
  | None => character ∉ grid_cells g
  end.
Proof.
  intros Hshape. rewrite findCharacterPosition_cells by assumption.
  destruct (str_find (grid_cells g) character) as [i|] eqn:E.
  - change (((0 ≤ Z.of_nat (i mod GRID_SIZE) < 5)%Z ∧ (0 ≤ Z.of_nat (i / GRID_SIZE) < 5)%Z)
            ∧ grid_get g (Z.to_nat (Z.of_nat (i / GRID_SIZE)))
                (Z.to_nat (Z.of_nat (i mod GRID_SIZE))) = character
            ∧ ∀ r c, r < GRID_SIZE → c < GRID_SIZE →
                r * GRID_SIZE + c
                < Z.to_nat (Z.of_nat (i / GRID_SIZE)) * GRID_SIZE
                  + Z.to_nat (Z.of_nat (i mod GRID_SIZE)) →
                grid_get g r c ≠ character).
    rewrite !Nat2Z.id.
    assert (i < GRID_TOTAL_CELLS) as Hi.
    { apply str_find_Some, lookup_lt_Some in E.
      rewrite (grid_shape_length g Hshape) in E. exact E. }
    pose proof (index_column_row i Hi) as Hb.
    assert (i / GRID_SIZE * GRID_SIZE + i mod GRID_SIZE = i) as Hdm.
    { unfold GRID_SIZE. pose proof (Nat.div_mod_eq i 5). lia. }
    split; [exact Hb |]. split.
    + rewrite grid_get_cells; [| assumption | unfold GRID_SIZE in *; lia ..].
      rewrite Hdm. apply char_at_lookup, str_find_Some, E.
    + intros r c Hr Hc Hlt. rewrite grid_get_cells by assumption.
      apply (str_find_first _ _ _ E). rewrite Hdm in Hlt. exact Hlt.
  - apply str_find_None, E.
Qed.

Lemma find_first_occurrence_witness :
  match findCharacterPosition playfairGrid "H"%char with
  | Some (column, row) =>
      (0 ≤ column < 5 ∧ 0 ≤ row < 5)%Z
      ∧ grid_get playfairGrid (Z.to_nat row) (Z.to_nat column) = "H"%char
      ∧ ∀ r c, r < GRID_SIZE → c < GRID_SIZE →
          r * GRID_SIZE + c < Z.to_nat row * GRID_SIZE + Z.to_nat column →
          grid_get playfairGrid r c ≠ "H"%char
  | None => "H"%char ∉ grid_cells playfairGrid
  end.
Proof. apply (find_first_occurrence playfairGrid "H"%char). exact playfairGrid_shape. Defined.

(** ** The printed result *)

Lemma printLoop_drop (fuel : nat) (text : cstring) (index pairCount : nat) (out : cstring) :
  length text - index ≤ fuel →
  printLoop fuel text index pairCount out = out ++ printPairs pairCount (drop index text).
Proof.
  revert index pairCount out.
  induction fuel as [|fuel IH]; intros index pairCount out Hfuel; cbn [printLoop].
  - rewrite drop_ge by lia. rewrite app_nil_r. reflexivity.
  - destruct (Nat.ltb_spec (index + 1) (length text)) as [Hlt | Hge].
    + rewrite (drop_at text index) by lia. rewrite (drop_at text (S index)) by lia.
      replace (index + 2) with (S (S index)) by lia.
      replace (index + 1) with (S index) by lia. cbn [printPairs].
      replace (pairCount + 1) with (S pairCount) by lia.
      destruct (PAIRS_PER_LINE <=? S pairCount); rewrite IH by lia;
        rewrite <- !app_assoc; reflexivity.
    + destruct (Nat.lt_ge_cases index (length text)) as [Hlt | Hge2].
      * rewrite (drop_at text index Hlt). rewrite (drop_ge text (S index)) by lia.
        rewrite app_nil_r. reflexivity.
      * rewrite drop_ge by lia. rewrite app_nil_r. reflexivity.
Qed.

Lemma printedPairs_pairs (text : cstring) : printedPairs text = printPairs 0 text.
Proof. unfold printedPairs. rewrite printLoop_drop by lia. reflexivity. Qed.

Lemma half_succ_succ (n : nat) : S (S n) / 2 = S (n / 2).
Proof. replace (S (S n)) with (n + 1 * 2) by lia. rewrite Nat.div_add by lia. lia. Qed.

(** A line that already holds [pairCount] pairs takes [PAIRS_PER_LINE -
    pairCount] more before the line feed. *)
Lemma printPairs_line (text : cstring) (pairCount : nat) :
  pairCount < PAIRS_PER_LINE →
  printPairs pairCount text
  = if length text / 2 <? PAIRS_PER_LINE - pairCount
    then spacedPairs text
    else spacedPairs (take (2 * (PAIRS_PER_LINE - pairCount)) text)
         ++ endl ++ printPairs 0 (drop (2 * (PAIRS_PER_LINE - pairCount)) text).
Proof.
  revert pairCount. unfold PAIRS_PER_LINE.
  induction text as [| a | a b rest IH] using pairs_ind; intros pairCount Hpc.
  - simpl length. change (0 / 2) with 0.
    destruct (Nat.ltb_spec 0 (26 - pairCount)); [reflexivity | lia].
  - simpl length. change (1 / 2) with 0.
    destruct (Nat.ltb_spec 0 (26 - pairCount)); [reflexivity | lia].
  - change (length (a :: b :: rest)) with (S (S (length rest))). rewrite half_succ_succ.
    change (printPairs pairCount (a :: b :: rest))
      with ([a; b; " "%char]
            ++ (if 26 <=? pairCount + 1 then endl ++ printPairs 0 rest
                else printPairs (pairCount + 1) rest)).
    destruct (Nat.leb_spec 26 (pairCount + 1)) as [Hfull | Hroom].
    + assert (pairCount = 25) as -> by lia.
      destruct (Nat.ltb_spec (S (length rest / 2)) (26 - 25)); [lia | reflexivity].
    + rewrite (IH (pairCount + 1)) by lia.
      replace (26 - (pairCount + 1)) with (26 - pairCount - 1) by lia.
      destruct (Nat.ltb_spec (length rest / 2) (26 - pairCount - 1)),
               (Nat.ltb_spec (S (length rest / 2)) (26 - pairCount)); try lia.
      * reflexivity.
      * replace (2 * (26 - pairCount)) with (S (S (2 * (26 - pairCount - 1)))) by lia.
        reflexivity.
Qed.

(** The pairs are printed 26 to a line: up to 25 pairs stand on one line, each
    followed by a space; from 26 pairs on, the first 26 are followed by a line
    feed and the rest is printed in the same way.  A last letter without a
    partner is not printed. *)
Theorem printed_lines (text : cstring) :
  printedPairs text
  = if length text / 2 <? PAIRS_PER_LINE
    then spacedPairs text
    else spacedPairs (take (2 * PAIRS_PER_LINE) text)
         ++ endl ++ printedPairs (drop (2 * PAIRS_PER_LINE) text).
Proof.
  rewrite !printedPairs_pairs. rewrite (printPairs_line text 0) by (unfold PAIRS_PER_LINE; lia).
  rewrite Nat.sub_0_r. reflexivity.
Qed.

Lemma blank_dropped (flag : bool) :
  mappedChar flag " "%char = None ∧ mappedChar flag "010"%char = None.
Proof. destruct flag; split; reflexivity. Qed.

Lemma filterText_printPairs (flag : bool) (text : cstring) (pairCount : nat) :
  Forall (fun c => permittedb flag c = true) text → Nat.Even (length text) →
  filterText (printPairs pairCount text) flag = text.
Proof.
  rewrite filterText_omap. revert pairCount.
  induction text as [| a | a b rest IH] using pairs_ind; intros pairCount Hp He.
  - reflexivity.
  - destruct He as [m Hm]. simpl in Hm. lia.
  - apply Forall_cons in Hp as [Ha Hp]. apply Forall_cons in Hp as [Hb Hp].
    apply mod2_Even in He. simpl length in He. rewrite mod2_succ_succ in He.
    apply mod2_Even in He.
    change (printPairs pairCount (a :: b :: rest))
      with ([a; b; " "%char]
            ++ (if PAIRS_PER_LINE <=? pairCount + 1 then endl ++ printPairs 0 rest
                else printPairs (pairCount + 1) rest)).
    assert (omap (mappedChar flag) [a; b; " "%char] = [a; b]) as Hab.
    { change (omap (mappedChar flag) [a; b; " "%char])
        with (match mappedChar flag a with
              | Some u =>
                  u :: match mappedChar flag b with
                       | Some v =>
                           v :: match mappedChar flag " "%char with
                                | Some w => [w]
                                | None => []
                                end
                       | None => match mappedChar flag " "%char with
                                 | Some w => [w]
                                 | None => []
                                 end
                       end
              | None =>
                  match mappedChar flag b with
                  | Some v =>
                      v :: match mappedChar flag " "%char with
                           | Some w => [w]
                           | None => []
                           end
                  | None => match mappedChar flag " "%char with
                            | Some w => [w]
                            | None => []
                            end
                  end
              end).
      rewrite (mappedChar_of_permitted flag a Ha), (mappedChar_of_permitted flag b Hb).
      rewrite (proj1 (blank_dropped flag)). reflexivity. }
    rewrite omap_app, Hab.
    destruct (PAIRS_PER_LINE <=? pairCount + 1).
    + rewrite omap_app.
      change (omap (mappedChar flag) endl)
        with (match mappedChar flag "010"%char with Some w => [w] | None => [] end).
      rewrite (proj2 (blank_dropped flag)). simpl. rewrite (IH 0 Hp He). reflexivity.
    + simpl. rewrite (IH (pairCount + 1) Hp He). reflexivity.
Qed.

(** The printed pairs can be given back as they are: decrypting, with the same
    key and mode, the pairs that an encryption printed (with their spaces and
    line feeds) gives the prepared plaintext. *)
Theorem printed_pairs_decrypt (key text : cstring) (flag : bool) :
  ∃ enc dec,
    process key text flag true newCipher = Some enc
    ∧ process key (printedPairs (processedText enc)) flag false newCipher = Some dec
    ∧ processedText dec = normalizeAndPrepareText text flag true.
Proof.
  destruct (round_trip_any text key flag) as (g & Hg & Hback).
  destruct (process_total key text flag true newCipher blank_grid_shape)
    as (g1 & Hg1 & Henc).
  assert (g1 = g) as -> by congruence.
  destruct (encrypted_length key text flag true g ENCRYPT_DIRECTION (or_introl eq_refl) Hg)
    as [Hlen Hperm].
  set (cipher := transformDigraphPairs g ENCRYPT_DIRECTION
                   (normalizeAndPrepareText text flag true)) in *.
  destruct (process_total key (printedPairs cipher) flag false newCipher blank_grid_shape)
    as (g2 & Hg2 & Hdec).
  assert (g2 = g) as -> by congruence.
  assert (Nat.Even (length cipher)) as He by (rewrite Hlen; apply normalize_even).
  assert (normalizeAndPrepareText (printedPairs cipher) flag false = cipher) as Hread.
  { unfold normalizeAndPrepareText. rewrite printedPairs_pairs.
    rewrite (filterText_printPairs flag cipher 0 Hperm He). apply padToEven_id, He. }
  rewrite Hread in Hdec.
  rewrite (normalize_decrypt_id flag cipher Hperm He) in Hback.
  exists {| processedText := cipher; cipherGrid := g |},
         {| processedText := transformDigraphPairs g DECRYPT_DIRECTION cipher;
            cipherGrid := g |}.
  split; [exact Henc |]. split; [exact Hdec | exact Hback].
Qed.

(** ** The order of the grid *)

Lemma alphabet_kept (flag : bool) :
  keepFirst (omap (keptChar flag) ALPHABET) = permittedLetters flag.
Proof. destruct flag; vm_compute; reflexivity. Qed.

Lemma uniqueCharacters_keyLetters (key : cstring) (flag : bool) :
  uniqueCharacters key flag
  = keyLetters key flag
    ++ List.filter (fun c => negb (memb c (keyLetters key flag))) (permittedLetters flag).
Proof.
  unfold uniqueCharacters, keyStream, keyLetters. rewrite fold_left_app.
  rewrite (fold_unique_keepFirst flag _ []). cbn [app].
  rewrite (filter_all _ _ (fun _ => eq_refl)).
  rewrite fold_unique_keepFirst, alphabet_kept, omap_keptChar. reflexivity.
Qed.

(** The grid, read row by row, holds the letters of the key (of KEYWORD for
    an empty key) that the mode keeps, uppercased and each at its first
    occurrence, followed by the other letters of the mode in alphabetical
    order. *)
Theorem grid_key_then_alphabet (key : cstring) (flag : bool) :
  ∃ g, buildGrid key flag = Some g
    ∧ grid_cells g
      = keyLetters key flag
        ++ List.filter (fun c => negb (memb c (keyLetters key flag))) (permittedLetters flag).
Proof.
  destruct (buildGrid_cells key flag) as (g & Hg & _ & Hcells).
  exists g. split; [exact Hg |]. rewrite Hcells. apply uniqueCharacters_keyLetters.
Qed.

(** Only the letters of a key and the order in which they first occur
    matter: keys with the same such letters build the same grid (repeated
    letters, case and other characters make no difference). *)
Theorem same_key_letters_same_grid (key1 key2 : cstring) (flag : bool) :
  keyLetters key1 flag = keyLetters key2 flag →
  buildGrid key1 flag = buildGrid key2 flag.
Proof.
  intros H. apply buildGrid_of_unique. rewrite !uniqueCharacters_keyLetters, H. reflexivity.
Qed.

Lemma same_key_letters_same_grid_witness :
  buildGrid (lit "Balloon!") DropQ = buildGrid (lit "b a l o n") DropQ.
Proof.
  apply (same_key_letters_same_grid (lit "Balloon!") (lit "b a l o n") DropQ).
  vm_compute. reflexivity.
Defined.

(** ** Case, and the letters J and Q of a text *)

Lemma upper_of_idem (c : char) : upper_of (upper_of c) = upper_of c.
Proof.
  assert (Ascii.eqb (upper_of (upper_of c)) (upper_of c) = true) as H by by_all_chars c.
  apply Ascii.eqb_eq, H.
Qed.

Lemma keptChar_upper (flag : bool) (c : char) : keptChar flag (upper_of c) = keptChar flag c.
Proof. unfold keptChar. rewrite upper_of_idem. reflexivity. Qed.

Lemma mappedChar_upper (flag : bool) (c : char) :
  mappedChar flag (upper_of c) = mappedChar flag c.
Proof. unfold mappedChar. rewrite upper_of_idem. reflexivity. Qed.

Lemma omap_map_char (f : char → option char) (h : char → char) (l : cstring) :
  (∀ c, f (h c) = f c) → omap f (map h l) = omap f l.
Proof.
  intros Hfh. induction l as [|c l IH]; [reflexivity |].
  change (match f (h c) with
          | Some u => u :: omap f (map h l)
          | None => omap f (map h l)
          end
          = match f c with Some u => u :: omap f l | None => omap f l end).
  rewrite Hfh, IH. reflexivity.
Qed.

Lemma keyStream_upper (key1 key2 : cstring) :
  map upper_of key1 = map upper_of key2 →
  map upper_of (keyStream key1) = map upper_of (keyStream key2).
Proof.
  intros H. unfold keyStream. rewrite !map_app. f_equal.
  destruct key1 as [|c1 key1], key2 as [|c2 key2]; try discriminate H;
    [reflexivity | exact H].
Qed.

Lemma filterText_upper (text1 text2 : cstring) (flag : bool) :
  map upper_of text1 = map upper_of text2 → filterText text1 flag = filterText text2 flag.
Proof.
  intros H. rewrite !filterText_omap.
  rewrite <- (omap_map_char _ upper_of text1 (mappedChar_upper flag)).
  rewrite <- (omap_map_char _ upper_of text2 (mappedChar_upper flag)).
  rewrite H. reflexivity.
Qed.

(** Case does not matter: keys that agree up to case build the same grid,
    texts that agree up to case are prepared alike, and [process] gives the
    same result for them. *)
Theorem case_insensitive (key1 key2 text1 text2 : cstring) (flag isEncryption : bool)
    (self : PlayfairCipher) :
  map upper_of key1 = map upper_of key2 →
  map upper_of text1 = map upper_of text2 →
  buildGrid key1 flag = buildGrid key2 flag
  ∧ normalizeAndPrepareText text1 flag isEncryption
    = normalizeAndPrepareText text2 flag isEncryption
  ∧ process key1 text1 flag isEncryption self = process key2 text2 flag isEncryption self.
Proof.
  intros Hkey Htext.
  assert (uniqueCharacters key1 flag = uniqueCharacters key2 flag) as Hu.
  { rewrite !uniqueCharacters_keepFirst.
    rewrite <- (omap_map_char _ upper_of (keyStream key1) (keptChar_upper flag)).
    rewrite <- (omap_map_char _ upper_of (keyStream key2) (keptChar_upper flag)).
    rewrite (keyStream_upper key1 key2 Hkey). reflexivity. }
  assert (normalizeAndPrepareText text1 flag isEncryption
          = normalizeAndPrepareText text2 flag isEncryption) as Hn.
  { unfold normalizeAndPrepareText. rewrite (filterText_upper text1 text2 flag Htext).
    reflexivity. }
  split; [apply buildGrid_of_unique, Hu |]. split; [exact Hn |].
  unfold process, buildCipherGrid. rewrite Hu, Hn. reflexivity.
Qed.

Lemma case_insensitive_witness :
  buildGrid (lit "playfair") MergeJintoI = buildGrid (lit "PlayFair") MergeJintoI
  ∧ normalizeAndPrepareText (lit "Hide the gold") MergeJintoI true
    = normalizeAndPrepareText (lit "HIDE THE GOLD") MergeJintoI true
  ∧ process (lit "playfair") (lit "Hide the gold") MergeJintoI true newCipher
    = process (lit "PlayFair") (lit "HIDE THE GOLD") MergeJintoI true newCipher.
Proof.
  apply (case_insensitive (lit "playfair") (lit "PlayFair")
           (lit "Hide the gold") (lit "HIDE THE GOLD") MergeJintoI true newCipher).
  - vm_compute. reflexivity.
  - vm_compute. reflexivity.
Defined.

Lemma mappedChar_IforJ (c : char) :
  mappedChar MergeJintoI
    (if Ascii.eqb c "J"%char || Ascii.eqb c "j"%char then "I"%char else c)
  = mappedChar MergeJintoI c.
Proof.
  destruct (Ascii.eqb_spec c "J"%char) as [->|_]; [reflexivity |].
  destruct (Ascii.eqb_spec c "j"%char) as [->|_]; reflexivity.
Qed.

Lemma omap_filter_char (f : char → option char) (keep : char → bool) (l : cstring) :
  (∀ c, keep c = false → f c = None) → omap f (List.filter keep l) = omap f l.
Proof.
  intros Hf. induction l as [|c l IH]; [reflexivity |].
  change (omap f (c :: l)) with (match f c with Some u => u :: omap f l | None => omap f l end).
  cbn [List.filter]. destruct (keep c) eqn:E.
  - change (match f c with
            | Some u => u :: omap f (List.filter keep l)
            | None => omap f (List.filter keep l)
            end
            = match f c with Some u => u :: omap f l | None => omap f l end).
    rewrite IH. reflexivity.
  - rewrite (Hf c E). exact IH.
Qed.

Lemma filterText_IforJ (text : cstring) :
  filterText (withIforJ text) MergeJintoI = filterText text MergeJintoI.
Proof.
  rewrite !filterText_omap. unfold withIforJ.
  apply (omap_map_char (mappedChar MergeJintoI) _ text mappedChar_IforJ).
Qed.

Lemma filterText_withoutQ (text : cstring) :
  filterText (withoutQ text) DropQ = filterText text DropQ.
Proof.
  rewrite !filterText_omap. unfold withoutQ. apply omap_filter_char.
  intros c Hc. apply negb_false_iff, orb_true_iff in Hc.
  destruct Hc as [Hc | Hc]; apply Ascii.eqb_eq in Hc; subst c; reflexivity.
Qed.

(** In a text, unlike in a key, J counts as I under MergeJintoI: a text and
    the text with I for every J and j give the same result.  Under DropQ the
    letters Q and q of a text are dropped: a text and the text without them
    give the same result. *)
Theorem text_J_and_Q (key text : cstring) (isEncryption : bool) (self : PlayfairCipher) :
  normalizeAndPrepareText (withIforJ text) MergeJintoI isEncryption
  = normalizeAndPrepareText text MergeJintoI isEncryption
  ∧ process key (withIforJ text) MergeJintoI isEncryption self
    = process key text MergeJintoI isEncryption self
  ∧ normalizeAndPrepareText (withoutQ text) DropQ isEncryption
    = normalizeAndPrepareText text DropQ isEncryption
  ∧ process key (withoutQ text) DropQ isEncryption self
    = process key text DropQ isEncryption self.
Proof.
  assert (normalizeAndPrepareText (withIforJ text) MergeJintoI isEncryption
          = normalizeAndPrepareText text MergeJintoI isEncryption) as HJ.
  { unfold normalizeAndPrepareText. rewrite filterText_IforJ. reflexivity. }
  assert (normalizeAndPrepareText (withoutQ text) DropQ isEncryption
          = normalizeAndPrepareText text DropQ isEncryption) as HQ.
  { unfold normalizeAndPrepareText. rewrite filterText_withoutQ. reflexivity. }
  split; [exact HJ |]. split; [unfold process; rewrite HJ; reflexivity |].
  split; [exact HQ |]. unfold process. rewrite HQ. reflexivity.
Qed.

(** ** What the preparation adds *)

Lemma pairUp_sublist (text : cstring) : text `sublist_of` pairUp text.
Proof.
  induction text as [| a | a b rest IH] using pairs_ind; simpl.
  - constructor.
  - reflexivity.
  - destruct (Ascii.eqb a b); simpl.
    + apply sublist_skip, sublist_cons, sublist_skip, IH.
    + apply sublist_skip, sublist_skip, IH.
Qed.

Lemma pairUp_elements (text : cstring) :
  Forall (fun c => c = PADDING_CHAR ∨ c ∈ text) (pairUp text).
Proof.
  induction text as [| a | a b rest IH] using pairs_ind; simpl.
  - constructor.
  - constructor; [right; apply elem_of_cons; left; reflexivity | constructor].
  - assert (Forall (fun c => c = PADDING_CHAR ∨ c ∈ a :: b :: rest) (pairUp rest)) as Hrest.
    { eapply Forall_impl; [exact IH |]. intros c [Hc | Hc]; [left; exact Hc |].
      right. apply elem_of_cons; right. apply elem_of_cons; right. exact Hc. }
    assert (a ∈ a :: b :: rest) as Ha by (apply elem_of_cons; left; reflexivity).
    assert (b ∈ a :: b :: rest) as Hb
      by (apply elem_of_cons; right; apply elem_of_cons; left; reflexivity).
    destruct (Ascii.eqb a b); simpl; repeat (constructor; [auto |]); exact Hrest.
Qed.

Lemma pairUp_length (text : cstring) :
  length (pairUp text) ≤ length text + length text / 2.
Proof.
  induction text as [| a | a b rest IH] using pairs_ind.
  - simpl. lia.
  - simpl. lia.
  - change (length (a :: b :: rest)) with (S (S (length rest))). rewrite half_succ_succ.
    cbn [pairUp]. destruct (Ascii.eqb a b); cbn [app length]; lia.
Qed.

Lemma filterText_length (text : cstring) (flag : bool) :
  length (filterText text flag) ≤ length text.
Proof.
  rewrite filterText_omap. induction text as [|c text IH]; [simpl; lia |].
  change (omap (mappedChar flag) (c :: text))
    with (match mappedChar flag c with
          | Some u => u :: omap (mappedChar flag) text
          | None => omap (mappedChar flag) text
          end).
  destruct (mappedChar flag c); simpl; lia.
Qed.

(** The preparation for encryption keeps the kept letters of the text in
    their order and adds padding letters only: at most one for every two
    letters, and one at the end. *)
Theorem preparation_adds_padding_only (text : cstring) (flag : bool) :
  filterText text flag `sublist_of` normalizeAndPrepareText text flag true
  ∧ Forall (fun c => c = PADDING_CHAR ∨ c ∈ filterText text flag)
      (normalizeAndPrepareText text flag true)
  ∧ length (normalizeAndPrepareText text flag true)
    ≤ length (filterText text flag) + length (filterText text flag) / 2 + 1
  ∧ length (filterText text flag) ≤ length text.
Proof.
  unfold normalizeAndPrepareText. rewrite pairLoop_pairUp.
  set (filtered := filterText text flag).
  split; [| split; [| split]].
  - transitivity (pairUp filtered); [apply pairUp_sublist |].
    unfold padToEven. destruct (_ =? _); [apply sublist_inserts_r |]; reflexivity.
  - apply padToEven_Forall; [left; reflexivity | apply pairUp_elements].
  - pose proof (pairUp_length filtered). unfold padToEven.
    destruct (_ =? _); [rewrite length_app; cbn [length] |]; lia.
  - apply filterText_length.
Qed.

(** A prepared text, for either direction, passes the preparation for
    decryption unchanged. *)
Theorem prepared_text_is_stable (text : cstring) (flag isEncryption : bool) :
  normalizeAndPrepareText (normalizeAndPrepareText text flag isEncryption) flag false
  = normalizeAndPrepareText text flag isEncryption.
Proof.
  apply normalize_decrypt_id; [apply normalize_permitted | apply normalize_even].
Qed.

(** ** The rule, by positions *)

Section Rule.
Variable g : Grid.
Hypothesis Hshape : grid_shape g.
Hypothesis Hnodup : NoDup (grid_cells g).

Local Open Scope Z_scope.

Lemma transformPair_positions (d ca ra cb rb : Z) :
  0 ≤ ca < 5 → 0 ≤ ra < 5 → 0 ≤ cb < 5 → 0 ≤ rb < 5 →
  transformPair g d (getCharacterAtPosition g ca ra) (getCharacterAtPosition g cb rb)
  = if ra =? rb
    then [getCharacterAtPosition g (ca + d) ra; getCharacterAtPosition g (cb + d) rb]
    else if ca =? cb
    then [getCharacterAtPosition g ca (ra + d); getCharacterAtPosition g cb (rb + d)]
    else [getCharacterAtPosition g cb ra; getCharacterAtPosition g ca rb].
Proof.
  intros Hca Hra Hcb Hrb. unfold transformPair.
  rewrite !(find_get g _ _ Hshape Hnodup).
  rewrite (Z.mod_small ca), (Z.mod_small ra), (Z.mod_small cb), (Z.mod_small rb)
    by assumption.
  reflexivity.
Qed.

Lemma shift_differs (c c' d : Z) :
  0 ≤ c < 5 → 0 ≤ c' < 5 → c ≠ c' → (c + d) mod 5 ≠ (c' + d) mod 5.
Proof. intros Hc Hc' Hne H. apply Hne. eapply shift_inj; eassumption. Qed.

Lemma transformPair_doubling (d : Z) (a b : char) :
  a ∈ grid_cells g → b ∈ grid_cells g →
  ∃ x y, transformPair g d a b = [x; y] ∧ (x = y ↔ a = b).
Proof.
  intros Ha Hb.
  apply (find_in_grid g _ Hshape) in Ha as [[ca ra] Ha].
  apply (find_in_grid g _ Hshape) in Hb as [[cb rb] Hb].
  destruct (get_find g a ca ra Hshape Ha) as [[Hca Hra] Hgeta].
  destruct (get_find g b cb rb Hshape Hb) as [[Hcb Hrb] Hgetb].
  assert (getCharacterAtPosition g ca ra = a) as Ea
    by (apply Hgeta; apply Z.mod_small; assumption).
  assert (getCharacterAtPosition g cb rb = b) as Eb
    by (apply Hgetb; apply Z.mod_small; assumption).
  assert (a = b → ca = cb ∧ ra = rb) as Hsame.
  { intros ->. rewrite Ha in Hb. injection Hb as -> ->. split; reflexivity. }
  unfold transformPair. rewrite Ha, Hb.
  destruct (Z.eqb_spec ra rb) as [Hrow | Hrow];
    [| destruct (Z.eqb_spec ca cb) as [Hcol | Hcol]];
    eexists _, _; (split; [reflexivity |]).
  - subst rb. split.
    + intros Hxy. destruct (Z.eq_dec ca cb) as [-> | Hne]; [congruence |].
      exfalso. revert Hxy. apply (get_differs g Hshape Hnodup). left.
      apply shift_differs; assumption.
    + intros Hab. destruct (Hsame Hab) as [-> _]. reflexivity.
  - subst cb. split.
    + intros Hxy. exfalso. revert Hxy. apply (get_differs g Hshape Hnodup). right.
      apply shift_differs; assumption.
    + intros Hab. destruct (Hsame Hab) as [_ ?]. contradiction.
  - split.
    + intros Hxy. exfalso. revert Hxy. apply (get_differs g Hshape Hnodup). right.
      rewrite !Z.mod_small by assumption. exact Hrow.
    + intros Hab. destruct (Hsame Hab) as [_ ?]. contradiction.
Qed.

Local Close Scope Z_scope.
End Rule.

(** The three cases of the rule, by positions, for a shift that does not
    overflow (such as +1 and -1): the letters at column and row (ca, ra) and
    (cb, rb) of a grid of distinct letters become the letters one step along
    the row if ra = rb, else one step along the column if ca = cb, else the
    letters at (cb, ra) and (ca, rb); the steps wrap around. *)
Theorem rule_by_positions (g : Grid) (d ca ra cb rb : Z) :
  grid_shape g → NoDup (grid_cells g) → shiftInRange d →
  (0 ≤ ca < 5)%Z → (0 ≤ ra < 5)%Z → (0 ≤ cb < 5)%Z → (0 ≤ rb < 5)%Z →
  transformPair g d (getCharacterAtPosition g ca ra) (getCharacterAtPosition g cb rb)
  = if (ra =? rb)%Z
    then [getCharacterAtPosition g ((ca + d) mod 5) ra;
          getCharacterAtPosition g ((cb + d) mod 5) rb]
    else if (ca =? cb)%Z
    then [getCharacterAtPosition g ca ((ra + d) mod 5);
          getCharacterAtPosition g cb ((rb + d) mod 5)]
    else [getCharacterAtPosition g cb ra; getCharacterAtPosition g ca rb].
Proof.
  intros Hshape Hnd _ Hca Hra Hcb Hrb.
  rewrite (transformPair_positions g Hshape Hnd d ca ra cb rb) by assumption.
  assert (∀ column row column' row',
            (column mod 5 = column' mod 5)%Z → (row mod 5 = row' mod 5)%Z →
            getCharacterAtPosition g column row = getCharacterAtPosition g column' row')
    as Hwrap.
  { intros column row column' row' Hc Hr. unfold getCharacterAtPosition.
    rewrite !wrapIndex_mod, Hc, Hr. reflexivity. }
  destruct (ra =? rb)%Z; [| destruct (ca =? cb)%Z]; try reflexivity;
    f_equal; [| f_equal | | f_equal]; apply Hwrap;
    rewrite ?Z.mod_mod by lia; reflexivity.
Qed.

Lemma rule_by_positions_witness :
  transformPair playfairGrid 1
    (getCharacterAtPosition playfairGrid 4 1) (getCharacterAtPosition playfairGrid 2 1)
  = if (1 =? 1)%Z
    then [getCharacterAtPosition playfairGrid ((4 + 1) mod 5) 1;
          getCharacterAtPosition playfairGrid ((2 + 1) mod 5) 1]
    else if (4 =? 2)%Z
    then [getCharacterAtPosition playfairGrid 4 ((1 + 1) mod 5);
          getCharacterAtPosition playfairGrid 2 ((1 + 1) mod 5)]
    else [getCharacterAtPosition playfairGrid 2 1; getCharacterAtPosition playfairGrid 4 1].
Proof.
  apply (rule_by_positions playfairGrid 1 4 1 2 1).
  - exact playfairGrid_shape.
  - apply (bool_decide_unpack _). vm_compute. exact I.
  - unfold shiftInRange. lia.
  - lia.
  - lia.
  - lia.
  - lia.
Defined.

(** For a shift that does not overflow (such as +1 and -1), a digraph of grid
    letters is transformed to a doubled letter exactly when it is a doubled
    letter itself. *)
Theorem doubled_letters_stay_doubled (g : Grid) (d : Z) (a b : char) :
  grid_shape g → NoDup (grid_cells g) → shiftInRange d →
  a ∈ grid_cells g → b ∈ grid_cells g →
  ∃ x y, transformPair g d a b = [x; y] ∧ (x = y ↔ a = b).
Proof. intros Hshape Hnd _. apply (transformPair_doubling g Hshape Hnd). Qed.

Lemma doubled_letters_stay_doubled_witness :
  ∃ x y, transformPair playfairGrid 1 "A"%char "A"%char = [x; y]
         ∧ (x = y ↔ "A"%char = "A"%char).
Proof.
  apply (doubled_letters_stay_doubled playfairGrid 1 "A"%char "A"%char).
  - exact playfairGrid_shape.
  - apply (bool_decide_unpack _). vm_compute. exact I.
  - unfold shiftInRange. lia.
  - apply (bool_decide_unpack _). vm_compute. exact I.
  - apply (bool_decide_unpack _). vm_compute. exact I.
Defined.
